(** * json-validate-codegen: the schema walker and the TypeScript emitter

    A shallow embedding of [Encoder.Run] / [Encoder.walk] (package
    [codegen]) and of the TypeScript [Emitter] (package [typescript]),
    followed by the properties of the walker that the specification
    states.

    Conventions of the embedding:
    - a Go [(string, error)] result is an [Outcome]: [Return name err]
      with [err : option error] ([None] is Go's [nil]); a run-time panic
      (a nil [*Schema] dereferenced, a slice re-sliced below zero) is
      [Panic];
    - the [*NamePath] that [walk] mutates in place is threaded through a
      [State]; a descriptor handed to the Emitter carries the value the
      path has at the moment of the call;
    - the output sink is an append-only string; next to it the state
      keeps the list of Emitter calls made so far, in call order;
    - Go leaves the iteration order of [range] over a map unspecified,
      and it may change from one [range] statement to the next.  Every
      [range] over a map therefore asks an oracle [order] for the order
      of that particular iteration, identified by the number of map
      iterations started before it. *)

From stdpp Require Import base option list gmap strings fin_maps.

(** ** Values of the Go standard library *)

(** [error]: only the message matters here ([errors.New msg]). *)
Definition error := string.

(** [*url.URL]: an opaque identifier of a root schema. *)
Definition URL := string.

Definition newline : string := String (Ascii.ascii_of_nat 10) EmptyString.
Definition tab : string := String (Ascii.ascii_of_nat 9) EmptyString.

(** ** The schema model of [jsonvalidate] *)

(** Modelled from the spec: the declarations of [jsonvalidate.SchemaKind],
    [jsonvalidate.SchemaType], [jsonvalidate.Schema] and
    [jsonvalidate.Registry] are not part of the sources.  The kinds and
    types are integer enumerations in Go, of which the walker names six
    and four constants; [SchemaKindOther] and [SchemaTypeOther] stand for
    every other value of the underlying integer type. *)
Inductive SchemaKind :=
| SchemaKindEmpty
| SchemaKindType
| SchemaKindElements
| SchemaKindProperties
| SchemaKindValues
| SchemaKindDiscriminator
| SchemaKindOther (n : nat).

Inductive SchemaType :=
| SchemaTypeNull
| SchemaTypeBoolean
| SchemaTypeNumber
| SchemaTypeString
| SchemaTypeOther (n : nat).

#[global] Instance SchemaKind_eq_dec : EqDecision SchemaKind.
Proof. solve_decision. Defined.

#[global] Instance SchemaType_eq_dec : EqDecision SchemaType.
Proof. solve_decision. Defined.

(** Modelled from the spec: the [Schema] struct, with the fields the
    walker reads.  A [*Schema] field is an [option] ([None] is [nil]); a
    [map[string]*Schema] is the list of its entries, keys without
    repetition in a well-formed schema, in no meaningful order (the order
    of an iteration comes from the oracle, not from this list), none of
    them [nil]. *)
#[local] Unset Elimination Schemes.
Inductive Schema := mkSchema {
  Schema_ID : URL;
  Schema_Kind : SchemaKind;
  Schema_Type : SchemaType;
  Schema_Elements : option Schema;
  Schema_Properties : list (string * Schema);
  Schema_OptionalProperties : list (string * Schema);
  Schema_Values : option Schema;
  Schema_DiscriminatorPropertyName : string;
  Schema_DiscriminatorMapping : list (string * Schema)
}.
#[local] Set Elimination Schemes.

(** Modelled from the spec: the registry is an ordered collection of root
    schemas. *)
Record Registry := mkRegistry { Registry_Schemas : list Schema }.

(** ** [NamePath] *)

Record NamePathSegment := mkSegment {
  Segment_Elements : bool;
  Segment_Values : bool;
  Segment_Variants : bool;
  Segment_Property : string
}.

(** The composite literals of the walker: unnamed fields are zero. *)
Definition segElements : NamePathSegment := mkSegment true false false "".
Definition segValues : NamePathSegment := mkSegment false true false "".
Definition segVariants : NamePathSegment := mkSegment false false true "".
Definition segProperty (key : string) : NamePathSegment :=
  mkSegment false false false key.

Record NamePath := mkNamePath {
  NamePath_SchemaID : URL;
  NamePath_Segments : list NamePathSegment
}.

(** [np.Segments = append(np.Segments, segment)] *)
Definition Push (segment : NamePathSegment) (np : NamePath) : NamePath :=
  mkNamePath (NamePath_SchemaID np) (NamePath_Segments np ++ [segment]).

(** [np.Segments = np.Segments[:len(np.Segments)-1]]: re-slicing an empty
    slice to length -1 panics, which is [None]. *)
Definition Pop (np : NamePath) : option NamePath :=
  match NamePath_Segments np with
  | [] => None
  | _ :: _ =>
      Some (mkNamePath (NamePath_SchemaID np)
              (take (length (NamePath_Segments np) - 1) (NamePath_Segments np)))
  end.

(** ** Descriptors handed to the Emitter *)

Record Struct := mkStruct {
  Struct_Path : NamePath;
  Struct_RequiredProperties : gmap string string;
  Struct_OptionalProperties : gmap string string
}.

Record Array := mkArray {
  Array_Path : NamePath;
  Array_Elements : string
}.

Record Values := mkValues {
  Values_Path : NamePath;
  Values_Values : string
}.

Record Variant := mkVariant {
  Variant_Path : NamePath;
  Variant_TagName : string;
  Variant_TagValue : string;
  Variant_RequiredProperties : gmap string string;
  Variant_OptionalProperties : gmap string string
}.

Record Union := mkUnion {
  Union_Path : NamePath;
  Union_Variants : list string
}.

(** ** The [Emitter] interface *)

(** What one [Emit*] call does: the text it writes to the [io.Writer] and
    the [(string, error)] it returns. *)
Record Emitted := mkEmitted {
  Emitted_text : string;
  Emitted_name : string;
  Emitted_err : option error
}.

(** The [nat] that an [Emit*] operation takes and returns is the number of
    map iterations started so far: an Emitter may itself [range] over the
    maps of a descriptor. *)
Record Emitter := mkEmitter {
  PrimitiveEmpty : string;
  PrimitiveNull : string;
  PrimitiveBoolean : string;
  PrimitiveNumber : string;
  PrimitiveString : string;
  EmitStruct : Struct → nat → Emitted * nat;
  EmitArray : Array → nat → Emitted * nat;
  EmitValues : Values → nat → Emitted * nat;
  EmitVariant : Variant → nat → Emitted * nat;
  EmitUnion : Union → nat → Emitted * nat
}.

(** [Encoder.Out] is the sink of the [World] below. *)
Record Encoder := mkEncoder {
  Encoder_Registry : Registry;
  Encoder_Emitter : Emitter
}.

(** ** The state of a run *)

(** One call of a composite operation of the Emitter. *)
Inductive Call :=
| CallStruct (strukt : Struct)
| CallArray (array : Array)
| CallValues (values : Values)
| CallVariant (variant : Variant)
| CallUnion (union : Union).

Definition Call_Path (c : Call) : NamePath :=
  match c with
  | CallStruct s => Struct_Path s
  | CallArray a => Array_Path a
  | CallValues v => Values_Path v
  | CallVariant v => Variant_Path v
  | CallUnion u => Union_Path u
  end.

Record World := mkWorld {
  World_out : string;
  World_calls : list Call;
  World_ranges : nat
}.

Record State := mkState {
  State_path : NamePath;
  State_world : World
}.

Inductive Outcome :=
| Return (name : string) (err : option error)
| Panic.

Definition pushSegment (segment : NamePathSegment) (st : State) : State :=
  mkState (Push segment (State_path st)) (State_world st).

Definition popSegment (st : State) : option State :=
  match Pop (State_path st) with
  | Some np => Some (mkState np (State_world st))
  | None => None
  end.

(** A [range] over a map starts: the iteration takes the next index. *)
Definition startRange (st : State) : State :=
  let w := State_world st in
  mkState (State_path st)
    (mkWorld (World_out w) (World_calls w) (S (World_ranges w))).

Definition emit (em : Emitter) (c : Call) : nat → Emitted * nat :=
  match c with
  | CallStruct s => EmitStruct em s
  | CallArray a => EmitArray em a
  | CallValues v => EmitValues em v
  | CallVariant v => EmitVariant em v
  | CallUnion u => EmitUnion em u
  end.

(** [e.Emitter.Emit*(e.Out, descriptor)]: the text goes to the sink, the
    call is recorded, the [(string, error)] pair is the outcome. *)
Definition invoke (em : Emitter) (c : Call) (st : State) : Outcome * State :=
  let w := State_world st in
  let '(r, n) := emit em c (World_ranges w) in
  (Return (Emitted_name r) (Emitted_err r),
   mkState (State_path st)
     (mkWorld (World_out w +:+ Emitted_text r) (World_calls w ++ [c]) n)).

(** The error of the discriminator case. *)
Definition errMapping : error :=
  "schemas within `mapping` must use only properties and optionalProperties".

(** ** The walker *)

Section Walker.

(** [order n l] is the order in which the [n]-th map iteration of the
    run visits the entries [l] of its map. *)
Variable order : nat → ∀ A : Type, list A → list A.

Variable e : Encoder.

(** A recursive call [e.walk(path, value)] on a fixed [value]. *)
Definition Walker := State → Outcome * State.

(** The loop
<<
    for key, value := range properties {
      path.Push(NamePathSegment{Property: key})
      name, err := e.walk(path, value)
      if err != nil { return "", err }
      resolved[key] = name
      path.Pop()
    }
>>
    which [walk] contains four times (required and optional properties
    of a properties node, and again inside the loop of a discriminator
    node).  [entries] is the map in iteration order, each value already
    paired with the recursive call on it.  [inl o]: the function
    returns [o] from inside the loop; [inr resolved]: the loop ends. *)
Fixpoint rangeProperties (entries : list (string * Walker))
    (resolved : gmap string string) (st : State)
    : (Outcome + gmap string string) * State :=
  match entries with
  | [] => (inr resolved, st)
  | (key, walkValue) :: rest =>
      match walkValue (pushSegment (segProperty key) st) with
      | (Return name None, st1) =>
          match popSegment st1 with
          | Some st2 => rangeProperties rest (<[key := name]> resolved) st2
          | None => (inl Panic, st1)
          end
      | (Return _ (Some err), st1) => (inl (Return "" (Some err)), st1)
      | (Panic, st1) => (inl Panic, st1)
      end
  end.

(** [resolved := map[string]string{}] followed by the loop. *)
Definition resolveProperties (properties : list (string * Walker))
    (st : State) : (Outcome + gmap string string) * State :=
  rangeProperties
    (order (World_ranges (State_world st)) _ properties) ∅ (startRange st).

(** The body of [for key, variant := range schema.DiscriminatorMapping];
    [required] and [optional] are the two property loops over the
    discriminator schema's own [Properties] and [OptionalProperties]. *)
Fixpoint rangeMapping (tagName : string)
    (required optional : State → (Outcome + gmap string string) * State)
    (entries : list (string * Schema)) (variants : list string)
    (st : State) : (Outcome + list string) * State :=
  match entries with
  | [] => (inr variants, st)
  | (key, variant) :: rest =>
      if decide (Schema_Kind variant ≠ SchemaKindProperties)
      then (inl (Return "" (Some errMapping)), st)
      else
        match required (pushSegment (segProperty key) st) with
        | (inl o, st1) => (inl o, st1)
        | (inr req, st1) =>
            match optional st1 with
            | (inl o, st2) => (inl o, st2)
            | (inr opt, st2) =>
                match invoke (Encoder_Emitter e)
                        (CallVariant
                           (mkVariant (State_path st2) tagName key req opt))
                        st2 with
                | (Return name None, st3) =>
                    match popSegment st3 with
                    | Some st4 =>
                        rangeMapping tagName required optional rest
                          (variants ++ [name]) st4
                    | None => (inl Panic, st3)
                    end
                | (Return _ (Some err), st3) =>
                    (inl (Return "" (Some err)), st3)
                | (Panic, st3) => (inl Panic, st3)
                end
            end
        end
  end.

Fixpoint walk (schema : Schema) (st : State) {struct schema}
    : Outcome * State :=
  let em := Encoder_Emitter e in
  let walkEntry (kv : string * Schema) : string * Walker :=
    let (key, value) := kv in (key, walk value) in
  match Schema_Kind schema with
  | SchemaKindEmpty => (Return (PrimitiveEmpty em) None, st)
  | SchemaKindType =>
      match Schema_Type schema with
      | SchemaTypeNull => (Return (PrimitiveNull em) None, st)
      | SchemaTypeBoolean => (Return (PrimitiveBoolean em) None, st)
      | SchemaTypeNumber => (Return (PrimitiveNumber em) None, st)
      | SchemaTypeString => (Return (PrimitiveString em) None, st)
      | SchemaTypeOther _ => (Return "" None, st)
      end
  | SchemaKindElements =>
      let st0 := pushSegment segElements st in
      match Schema_Elements schema with
      | None => (Panic, st0)
      | Some child =>
          match walk child st0 with
          | (Return name None, st1) =>
              match popSegment st1 with
              | Some st2 =>
                  invoke em (CallArray (mkArray (State_path st2) name)) st2
              | None => (Panic, st1)
              end
          | (Return _ (Some err), st1) => (Return "" (Some err), st1)
          | (Panic, st1) => (Panic, st1)
          end
      end
  | SchemaKindProperties =>
      match resolveProperties (map walkEntry (Schema_Properties schema)) st
      with
      | (inl o, st1) => (o, st1)
      | (inr required, st1) =>
          match resolveProperties
                  (map walkEntry (Schema_OptionalProperties schema)) st1
          with
          | (inl o, st2) => (o, st2)
          | (inr optional, st2) =>
              invoke em
                (CallStruct (mkStruct (State_path st2) required optional))
                st2
          end
      end
  | SchemaKindValues =>
      let st0 := pushSegment segValues st in
      match Schema_Values schema with
      | None => (Panic, st0)
      | Some child =>
          match walk child st0 with
          | (Return name None, st1) =>
              match popSegment st1 with
              | Some st2 =>
                  invoke em (CallValues (mkValues (State_path st2) name)) st2
              | None => (Panic, st1)
              end
          | (Return _ (Some err), st1) => (Return "" (Some err), st1)
          | (Panic, st1) => (Panic, st1)
          end
      end
  | SchemaKindDiscriminator =>
      let st0 := pushSegment segVariants st in
      match
        rangeMapping (Schema_DiscriminatorPropertyName schema)
          (resolveProperties (map walkEntry (Schema_Properties schema)))
          (resolveProperties
             (map walkEntry (Schema_OptionalProperties schema)))
          (order (World_ranges (State_world st0)) _
             (Schema_DiscriminatorMapping schema))
          [] (startRange st0)
      with
      | (inl o, st1) => (o, st1)
      | (inr variants, st1) =>
          match popSegment st1 with
          | Some st2 =>
              invoke em (CallUnion (mkUnion (State_path st2) variants)) st2
          | None => (Panic, st1)
          end
      end
  | SchemaKindOther _ => (Return "" None, st)
  end.

(** The pairing of a map entry with the recursive call on its value, as
    [walk] builds it for the loops. *)
Definition walkEntry (kv : string * Schema) : string * Walker :=
  let (key, value) := kv in (key, walk value).

(** [Run]: the loop over [e.Registry.Schemas]; [None] is the final
    [return nil]. *)
Inductive RunOutcome :=
| RunReturn (err : option error)
| RunPanic.

Fixpoint runSchemas (schemas : list Schema) (w : World)
    : RunOutcome * World :=
  match schemas with
  | [] => (RunReturn None, w)
  | schema :: rest =>
      let path := mkNamePath (Schema_ID schema) [] in
      match walk schema (mkState path w) with
      | (Return _ None, st) => runSchemas rest (State_world st)
      | (Return _ (Some err), st) => (RunReturn (Some err), State_world st)
      | (Panic, st) => (RunPanic, State_world st)
      end
  end.

Definition Run (w : World) : RunOutcome * World :=
  runSchemas (Registry_Schemas (Encoder_Registry e)) w.

End Walker.

(** ** The TypeScript emitter (package [typescript]) *)

Module TypeScript.

Section Emitter.

Variable order : nat → ∀ A : Type, list A → list A.

(** What [html/template] does to the value of an action in text
    context before writing it; the library is outside the
    repository. *)
Variable escape : string → string.

Record structArgsProperties := mkProp {
  Prop_Name : string;
  Prop_Type : string
}.

(** The templates, after the trimming that [{{-] and [-}}] do. *)
Definition arrayFmt (Name Elements : string) : string :=
  "export type " +:+ escape Name +:+ " = " +:+ escape Elements
    +:+ "[];" +:+ newline.

Definition fmtProperties (Properties : list structArgsProperties)
    : string :=
  foldr (λ p rest,
           newline +:+ "  " +:+ escape (Prop_Name p) +:+ ": "
             +:+ escape (Prop_Type p) +:+ ";" +:+ rest)
    "" Properties.

Definition structFmt (Name : string)
    (Properties : list structArgsProperties) : string :=
  "export interface " +:+ escape Name +:+ " {"
    +:+ fmtProperties Properties +:+ newline +:+ "}" +:+ newline.

Definition valuesFmt (Name Values : string) : string :=
  "export interface " +:+ escape Name +:+ " {" +:+ newline +:+ tab
    +:+ "[key: string]: " +:+ escape Values +:+ ";" +:+ newline
    +:+ "}" +:+ newline.

Definition variantFmt (Name TagName TagValue : string)
    (Properties : list structArgsProperties) : string :=
  "export interface " +:+ escape Name +:+ " {" +:+ newline +:+ tab
    +:+ escape TagName +:+ ": " +:+ String.String (Ascii.ascii_of_nat 34) ""
    +:+ escape TagValue +:+ String.String (Ascii.ascii_of_nat 34) ""
    +:+ ";" +:+ fmtProperties Properties +:+ newline +:+ "}" +:+ newline.

Fixpoint fmtVariants (index : nat) (Variants : list string) : string :=
  match Variants with
  | [] => ""
  | variant :: rest =>
      newline +:+ tab +:+ (if index is O then "" else "|") +:+ " "
        +:+ escape variant +:+ fmtVariants (S index) rest
  end.

Definition unionFmt (Name : string) (Variants : list string) : string :=
  "export type " +:+ escape Name +:+ " =" +:+ fmtVariants 0 Variants
    +:+ newline.

(** The loop over [Path.Segments] with which each [Emit*] starts, the
    same text in all five. *)
Definition typeName (path : NamePath) : string :=
  foldl (λ name s,
           if Segment_Elements s then name +:+ "Element"
           else if Segment_Variants s then name +:+ "Variant"
           else if Segment_Values s then name +:+ "Value"
           else name +:+ Segment_Property s)
    "Default" (NamePath_Segments path).

(** The two loops that fill [args.Properties]; each is a [range] over
    a map. *)
Definition requiredArgs (n : nat) (m : gmap string string)
    : list structArgsProperties :=
  (λ kv, mkProp kv.1 kv.2) <$> order n _ (map_to_list m).

Definition optionalArgs (n : nat) (m : gmap string string)
    : list structArgsProperties :=
  (λ kv, mkProp (kv.1 +:+ "?") kv.2) <$> order n _ (map_to_list m).

(** [err] of [Execute] is the error of a failed write; the sink here
    takes every write, so it is [nil]. *)
Definition EmitArray (array : Array) (n : nat) : Emitted * nat :=
  let name := typeName (Array_Path array) in
  (mkEmitted (arrayFmt name (Array_Elements array)) name None, n).

Definition EmitStruct (strukt : Struct) (n : nat) : Emitted * nat :=
  let name := typeName (Struct_Path strukt) in
  let Properties :=
    (requiredArgs n (Struct_RequiredProperties strukt)
       ++ optionalArgs (S n) (Struct_OptionalProperties strukt))%list in
  (mkEmitted (structFmt name Properties) name None, S (S n)).

Definition EmitValues (values : Values) (n : nat) : Emitted * nat :=
  let name := typeName (Values_Path values) in
  (mkEmitted (valuesFmt name (Values_Values values)) name None, n).

(** [args] is a [variantArgs], and the template executed on it is
    [structFmt]. *)
Definition EmitVariant (variant : Variant) (n : nat) : Emitted * nat :=
  let name := typeName (Variant_Path variant) in
  let Properties :=
    (requiredArgs n (Variant_RequiredProperties variant)
       ++ optionalArgs (S n) (Variant_OptionalProperties variant))%list in
  (mkEmitted (structFmt name Properties) name None, S (S n)).

Definition EmitUnion (union : Union) (n : nat) : Emitted * nat :=
  let name := typeName (Union_Path union) in
  (mkEmitted (unionFmt name (Union_Variants union)) name None, n).

Definition Emitter : Emitter :=
  mkEmitter "any" "null" "boolean" "number" "string"
    EmitStruct EmitArray EmitValues EmitVariant EmitUnion.

End Emitter.

End TypeScript.

(** ** Concrete runs *)

(** Two iteration orders: every map is visited in the order of its entry
    list, or every map in the opposite order. *)
Definition inOrder : nat → ∀ A : Type, list A → list A := λ _ _ l, l.
Definition reversed : nat → ∀ A : Type, list A → list A :=
  λ _ _ l, rev l.

(** The replacement table of [html/template]'s escaper for text
    ([htmlReplacementTable]): NUL becomes U+FFFD, six ASCII characters
    become character references, and every other byte, those of longer
    runes included, is copied. *)
Definition htmlEscapeByte (c : Ascii.ascii) : string :=
  match Ascii.nat_of_ascii c with
  | 0 =>
      String (Ascii.ascii_of_nat 239)
        (String (Ascii.ascii_of_nat 191)
           (String (Ascii.ascii_of_nat 189) EmptyString))
  | 34 => "&#34;"
  | 38 => "&amp;"
  | 39 => "&#39;"
  | 43 => "&#43;"
  | 60 => "&lt;"
  | 62 => "&gt;"
  | _ => String c EmptyString
  end.

Fixpoint htmlEscape (s : string) : string :=
  match s with
  | EmptyString => EmptyString
  | String c rest => htmlEscapeByte c +:+ htmlEscape rest
  end.

(** [codegen.Encoder{Out: os.Stdout, Registry: registry,
    Emitter: &typescript.Emitter{}}] of [main.run]. *)
Definition encoder (order : nat → ∀ A : Type, list A → list A)
    (schemas : list Schema) : Encoder :=
  mkEncoder (mkRegistry schemas) (TypeScript.Emitter order htmlEscape).

Definition emptyWorld : World := mkWorld "" [] 0.

Definition atRoot (id : URL) (w : World) : State :=
  mkState (mkNamePath id []) w.

(** Schemas as the registry builds them: the fields that a kind does not
    use are zero. *)
Definition schemaType (t : SchemaType) : Schema :=
  mkSchema "" SchemaKindType t None [] [] None "" [].

Definition schemaElements (child : Schema) : Schema :=
  mkSchema "" SchemaKindElements SchemaTypeNull (Some child) [] [] None "" [].

Definition schemaProperties (required optional : list (string * Schema))
    : Schema :=
  mkSchema "" SchemaKindProperties SchemaTypeNull None required optional
    None "" [].

Definition schemaDiscriminator (tag : string)
    (mapping required optional : list (string * Schema)) : Schema :=
  mkSchema "" SchemaKindDiscriminator SchemaTypeNull None required optional
    None tag mapping.

(** The TypeScript emitter on a sink that takes no write, such as a
    closed file: [Execute] writes nothing and returns the error of the
    writer; the name is returned as always. *)
Definition onClosedSink (em : Emitter) (err : error) : Emitter :=
  let closed {D} (op : D → nat → Emitted * nat) (d : D) (n : nat) :=
    let (r, n') := op d n in (mkEmitted "" (Emitted_name r) (Some err), n') in
  mkEmitter (PrimitiveEmpty em) (PrimitiveNull em) (PrimitiveBoolean em)
    (PrimitiveNumber em) (PrimitiveString em)
    (closed (EmitStruct em)) (closed (EmitArray em)) (closed (EmitValues em))
    (closed (EmitVariant em)) (closed (EmitUnion em)).

(** * The vocabulary of the properties *)

(** [under p q]: the path [q] belongs to the same root as [p] and
    continues it. *)
Definition under (p q : NamePath) : Prop :=
  NamePath_SchemaID q = NamePath_SchemaID p
  ∧ NamePath_Segments p `prefix_of` NamePath_Segments q.

(** [callsUnder p w w']: from [w] to [w'] the Emitter was only called, and
    only on paths that continue [p]. *)
Definition callsUnder (p : NamePath) (w w' : World) : Prop :=
  ∃ new, World_calls w' = World_calls w ++ new
         ∧ Forall (λ c, under p (Call_Path c)) new.

(** What a call of [walk], or of any function that returns a Go result
    after working on the path, leaves behind. *)
Record Post (st : State) (o : Outcome) (st' : State) : Prop := mkPost {
  Post_under : under (State_path st) (State_path st');
  Post_ok : ∀ name, o = Return name None → State_path st' = State_path st;
  Post_calls : callsUnder (State_path st) (State_world st) (State_world st')
}.

(** The same for a loop of [walk]: [inl o] leaves the function with [o],
    which is never a success; [inr] goes on after the loop. *)
Record LoopPost {R} (st : State) (r : Outcome + R) (st' : State)
    : Prop := mkLoopPost {
  LoopPost_under : under (State_path st) (State_path st');
  LoopPost_end :
    match r with
    | inl o => ∀ name, o ≠ Return name None
    | inr _ => State_path st' = State_path st
    end;
  LoopPost_calls :
    callsUnder (State_path st) (State_world st) (State_world st')
}.

(** Functions on the state whose every call leaves the above behind. *)
Definition GoodWalker (f : State → Outcome * State) : Prop :=
  ∀ st o st', f st = (o, st') → Post st o st'.

Definition GoodLoop {R} (f : State → (Outcome + R) * State) : Prop :=
  ∀ st r st', f st = (r, st') → LoopPost st r st'.

(** The kinds that have a [case] in the [switch] of [walk], and the types
    that have a [case] in its inner [switch]. *)
Definition handledKinds : list SchemaKind :=
  [SchemaKindEmpty; SchemaKindType; SchemaKindElements;
   SchemaKindProperties; SchemaKindValues; SchemaKindDiscriminator].

Definition handledTypes : list SchemaType :=
  [SchemaTypeNull; SchemaTypeBoolean; SchemaTypeNumber; SchemaTypeString].

(** No [case] of [walk] matches the node. *)
Definition unhandled (schema : Schema) : Prop :=
  Schema_Kind schema ∉ handledKinds
  ∨ (Schema_Kind schema = SchemaKindType
     ∧ Schema_Type schema ∉ handledTypes).

#[global] Instance unhandled_dec schema : Decision (unhandled schema).
Proof. unfold unhandled. apply _. Defined.

(** [Processed order e roots w w']: starting in [w], the roots are walked
    one after the other in list order, each on a new path that holds its
    own identifier and no segment, each call returns a nil error, and the
    last one ends in [w']. *)
Inductive Processed (order : nat → ∀ A : Type, list A → list A)
    (e : Encoder) : list Schema → World → World → Prop :=
| Processed_none w : Processed order e [] w w
| Processed_next roots schema w w1 name st :
    Processed order e roots w w1 →
    walk order e schema (mkState (mkNamePath (Schema_ID schema) []) w1)
      = (Return name None, st) →
    Processed order e (roots ++ [schema]) w (State_world st).

(** No [Elements] or [Values] pointer that [walk] follows is nil.  (The
    roots and the values of the maps are not nil by their type.) *)
Fixpoint noNil (schema : Schema) : bool :=
  let children (properties : list (string * Schema)) :=
    forallb (λ kv : string * Schema, let (_, value) := kv in noNil value)
      properties in
  match Schema_Kind schema with
  | SchemaKindElements =>
      match Schema_Elements schema with
      | Some child => noNil child
      | None => false
      end
  | SchemaKindValues =>
      match Schema_Values schema with
      | Some child => noNil child
      | None => false
      end
  | SchemaKindProperties | SchemaKindDiscriminator =>
      children (Schema_Properties schema)
      && children (Schema_OptionalProperties schema)
  | _ => true
  end.

(** No operation of the Emitter ever returns an error. *)
Definition infallible (em : Emitter) : Prop :=
  ∀ c n, Emitted_err (emit em c n).1 = None.

(** The outcome is a success or the error of the kind check. *)
Definition onlyMappingError (o : Outcome) : Prop :=
  match o with
  | Return _ None => True
  | Return name (Some err) => name = "" ∧ err = errMapping
  | Panic => False
  end.

(** The same for a loop: it ends, or leaves with that error. *)
Definition loopOnlyMappingError {R} (r : Outcome + R) : Prop :=
  match r with
  | inl o => o = Return "" (Some errMapping)
  | inr _ => True
  end.

(** [resolvedFrom order e properties p m]: [m] holds a name for exactly the
    keys of [properties], and the name of a key is one that [walk]
    returned for a value of that key, called on the path [p] extended by
    the property segment of the key. *)
Definition resolvedFrom (order : nat → ∀ A : Type, list A → list A)
    (e : Encoder) (properties : list (string * Schema)) (p : NamePath)
    (m : gmap string string) : Prop :=
  (∀ key, is_Some (m !! key) ↔ key ∈ properties.*1)
  ∧ ∀ key name, m !! key = Some name →
      ∃ value st1 st2,
        (key, value) ∈ properties
        ∧ State_path st1 = Push (segProperty key) p
        ∧ walk order e value st1 = (Return name None, st2).

(** Every map over which [walk] iterates in [schema] (properties,
    optional properties and discriminator mapping, at every node it
    reaches) has at most one entry. *)
Fixpoint singleEntryMaps (schema : Schema) : bool :=
  let small (properties : list (string * Schema)) :=
    bool_decide (length properties ≤ 1)
    && forallb
         (λ kv : string * Schema, let (_, value) := kv in
                                  singleEntryMaps value)
         properties in
  match Schema_Kind schema with
  | SchemaKindElements =>
      match Schema_Elements schema with
      | Some child => singleEntryMaps child
      | None => true
      end
  | SchemaKindValues =>
      match Schema_Values schema with
      | Some child => singleEntryMaps child
      | None => true
      end
  | SchemaKindProperties =>
      small (Schema_Properties schema)
      && small (Schema_OptionalProperties schema)
  | SchemaKindDiscriminator =>
      bool_decide (length (Schema_DiscriminatorMapping schema) ≤ 1)
      && (small (Schema_Properties schema)
          && small (Schema_OptionalProperties schema))
  | _ => true
  end.

(** The names that the TypeScript emitter returned, in call order. *)
Definition generatedNames (w : World) : list string :=
  (λ c, TypeScript.typeName (Call_Path c)) <$> World_calls w.

(** [strictlyUnder p q]: the path [q] continues [p] by at least one
    segment. *)
Definition strictlyUnder (p q : NamePath) : Prop :=
  ∃ segment, under (Push segment p) q.

(** The kinds for which [walk] ends in a call of the Emitter. *)
Definition compositeKinds : list SchemaKind :=
  [SchemaKindElements; SchemaKindProperties; SchemaKindValues;
   SchemaKindDiscriminator].

(** The name that the TypeScript emitter gives to the variant of a
    mapping key under the discriminator node at path [p]. *)
Definition variantName (p : NamePath) (key : string) : string :=
  TypeScript.typeName (Push (segProperty key) (Push segVariants p)).





(** The two steps that change the world during a run: a map iteration
    starts ([startRange]), or the Emitter is called ([invoke]). *)
Definition afterRange (w : World) : World :=
  mkWorld (World_out w) (World_calls w) (S (World_ranges w)).

Definition afterCall (em : Emitter) (c : Call) (w : World) : World :=
  let (r, n) := emit em c (World_ranges w) in
  mkWorld (World_out w +:+ Emitted_text r) (World_calls w ++ [c]) n.

(** [Emits em w cs w']: from [w] to [w'] nothing happened but map
    iterations starting and the Emitter being called on the descriptors
    [cs], in this order, each call returning a nil error. *)
Inductive Emits (em : Emitter) : World → list Call → World → Prop :=
| Emits_done w : Emits em w [] w
| Emits_range w cs w' :
    Emits em (afterRange w) cs w' → Emits em w cs w'
| Emits_call w c cs w' :
    Emitted_err (emit em c (World_ranges w)).1 = None →
    Emits em (afterCall em c w) cs w' →
    Emits em w (c :: cs) w'.

(** [stoppedAt em w err w']: from [w] on, every call of the Emitter
    returned a nil error until one call returned [err], and [w'] is the
    world right after that call. *)
Definition stoppedAt (em : Emitter) (w : World) (err : error) (w' : World)
    : Prop :=
  ∃ cs wc c,
    Emits em w cs wc
    ∧ Emitted_err (emit em c (World_ranges wc)).1 = Some err
    ∧ w' = afterCall em c wc.

(** What a fail-fast function leaves: all its Emitter calls returned nil
    and it returns a success, the error of the kind check or a panic; or
    it returns the error of its last Emitter call, after which nothing
    more happened. *)
Definition failFast (em : Emitter) (w : World) (o : Outcome) (w' : World)
    : Prop :=
  match o with
  | Return _ (Some err) =>
      (err = errMapping ∧ ∃ cs, Emits em w cs w') ∨ stoppedAt em w err w'
  | _ => ∃ cs, Emits em w cs w'
  end.

(** * Properties *)

(** ** Induction over schema trees *)

Section SchemaInduction.

Variable P : Schema → Prop.

Hypothesis step : ∀ id k t el ps os v dn dm,
  (∀ c, el = Some c → P c) →
  Forall (λ kv, P kv.2) ps →
  Forall (λ kv, P kv.2) os →
  (∀ c, v = Some c → P c) →
  Forall (λ kv, P kv.2) dm →
  P (mkSchema id k t el ps os v dn dm).

Lemma Schema_ind : ∀ s, P s.
Proof.
  fix IH 1. intros [id k t el ps os v dn dm]. apply step.
  - destruct el as [c0|]; intros c H; [|discriminate].
    injection H as <-. apply IH.
  - induction ps as [|[key s0] ps IHps]; constructor; [apply IH|apply IHps].
  - induction os as [|[key s0] os IHos]; constructor; [apply IH|apply IHos].
  - destruct v as [c0|]; intros c H; [|discriminate].
    injection H as <-. apply IH.
  - induction dm as [|[key s0] dm IHdm]; constructor; [apply IH|apply IHdm].
Qed.

End SchemaInduction.

(** ** [Push] and [Pop] *)

Lemma Pop_Push segment np : Pop (Push segment np) = Some np.
Proof.
  destruct np as [id l]. unfold Pop, Push. simpl.
  destruct (l ++ [segment]) eqn:E; [by destruct l|].
  rewrite <- E, length_app. simpl.
  replace (length l + 1 - 1) with (length l) by lia.
  by rewrite take_app_length.
Qed.

Lemma popSegment_pushed segment np st :
  State_path st = Push segment np →
  popSegment st = Some (mkState np (State_world st)).
Proof. intros H. unfold popSegment. by rewrite H, Pop_Push. Qed.


Lemma under_refl p : under p p.
Proof. by split. Qed.

Lemma under_trans p q r : under p q → under q r → under p r.
Proof. intros [H1 H2] [H3 H4]. split; [congruence|by etrans]. Qed.

Lemma under_Push segment p : under p (Push segment p).
Proof. split; [done|]. simpl. by apply prefix_app_r. Qed.

Lemma under_Push_l segment p q : under (Push segment p) q → under p q.
Proof. apply under_trans, under_Push. Qed.



Lemma callsUnder_refl p w : callsUnder p w w.
Proof. exists []. by rewrite app_nil_r. Qed.

Lemma callsUnder_trans p w1 w2 w3 :
  callsUnder p w1 w2 → callsUnder p w2 w3 → callsUnder p w1 w3.
Proof.
  intros (n1 & E1 & F1) (n2 & E2 & F2). exists (n1 ++ n2).
  split; [by rewrite E2, E1, app_assoc|by apply Forall_app].
Qed.

Lemma callsUnder_weaken p q w w' :
  under p q → callsUnder q w w' → callsUnder p w w'.
Proof.
  intros Hpq (new & E & F). exists new. split; [done|].
  eapply Forall_impl; [exact F|]. intros c Hc. by eapply under_trans.
Qed.

Lemma invoke_Post em c st o st' :
  invoke em c st = (o, st') →
  under (State_path st) (Call_Path c) →
  Post st o st'.
Proof.
  unfold invoke. destruct (emit em c _) as [r n]. intros [= <- <-] Hc.
  split; simpl; [apply under_refl|done|].
  exists [c]. split; [done|by constructor].
Qed.

Lemma invoke_calls em c st o st' :
  invoke em c st = (o, st') →
  World_calls (State_world st') = World_calls (State_world st) ++ [c]
  ∧ State_path st' = State_path st
  ∧ o = Return (Emitted_name (emit em c (World_ranges (State_world st))).1)
          (Emitted_err (emit em c (World_ranges (State_world st))).1).
Proof.
  unfold invoke. destruct (emit em c _) as [r n]. by intros [= <- <-].
Qed.

(** ** What every call of [walk] leaves behind *)

Section WalkerInvariants.

Variable order : nat → ∀ A : Type, list A → list A.
Variable e : Encoder.

(** An iteration visits every entry of its map once. *)
Hypothesis order_perm : ∀ n A (l : list A), order n A l ≡ₚ l.

#[local] Abbreviation walk := (walk order e).
#[local] Abbreviation walkEntry := (walkEntry order e).
#[local] Abbreviation em := (Encoder_Emitter e).

(** *** Unfolding [walk] at each kind *)

Lemma walk_Elements schema child st :
  Schema_Kind schema = SchemaKindElements →
  Schema_Elements schema = Some child →
  walk schema st =
    match walk child (pushSegment segElements st) with
    | (Return name None, st1) =>
        match popSegment st1 with
        | Some st2 =>
            invoke em (CallArray (mkArray (State_path st2) name)) st2
        | None => (Panic, st1)
        end
    | (Return _ (Some err), st1) => (Return "" (Some err), st1)
    | (Panic, st1) => (Panic, st1)
    end.
Proof. destruct schema. simpl. by intros -> ->. Qed.

Lemma walk_Values schema child st :
  Schema_Kind schema = SchemaKindValues →
  Schema_Values schema = Some child →
  walk schema st =
    match walk child (pushSegment segValues st) with
    | (Return name None, st1) =>
        match popSegment st1 with
        | Some st2 =>
            invoke em (CallValues (mkValues (State_path st2) name)) st2
        | None => (Panic, st1)
        end
    | (Return _ (Some err), st1) => (Return "" (Some err), st1)
    | (Panic, st1) => (Panic, st1)
    end.
Proof. destruct schema. simpl. by intros -> ->. Qed.

Lemma walk_Properties schema st :
  Schema_Kind schema = SchemaKindProperties →
  walk schema st =
    match resolveProperties order
            (map walkEntry (Schema_Properties schema)) st with
    | (inl o, st1) => (o, st1)
    | (inr required, st1) =>
        match resolveProperties order
                (map walkEntry (Schema_OptionalProperties schema)) st1 with
        | (inl o, st2) => (o, st2)
        | (inr optional, st2) =>
            invoke em
              (CallStruct (mkStruct (State_path st2) required optional)) st2
        end
    end.
Proof. destruct schema. simpl. by intros ->. Qed.

Lemma walk_Discriminator schema st :
  Schema_Kind schema = SchemaKindDiscriminator →
  walk schema st =
    match
      rangeMapping e (Schema_DiscriminatorPropertyName schema)
        (resolveProperties order (map walkEntry (Schema_Properties schema)))
        (resolveProperties order
           (map walkEntry (Schema_OptionalProperties schema)))
        (order (World_ranges (State_world st)) _
           (Schema_DiscriminatorMapping schema))
        [] (startRange (pushSegment segVariants st))
    with
    | (inl o, st1) => (o, st1)
    | (inr variants, st1) =>
        match popSegment st1 with
        | Some st2 =>
            invoke em (CallUnion (mkUnion (State_path st2) variants)) st2
        | None => (Panic, st1)
        end
    end.
Proof. destruct schema. simpl. by intros ->. Qed.

(** *** The loops *)

Lemma rangeProperties_LoopPost entries :
  Forall (λ kf : string * Walker, GoodWalker kf.2) entries →
  ∀ resolved, GoodLoop (rangeProperties entries resolved).
Proof.
  induction 1 as [|[key f] rest Hf _ IH]; intros resolved st r st'; simpl.
  - intros [= <- <-]. split; [apply under_refl|done|apply callsUnder_refl].
  - destruct (f _) as [o1 st1] eqn:E1. apply Hf in E1 as [U1 K1 C1].
    simpl in U1, K1, C1.
    destruct o1 as [name [err|]|].
    + intros [= <- <-].
      split; [by eapply under_Push_l|done|].
      eapply callsUnder_weaken, C1. apply under_Push.
    + rewrite (popSegment_pushed (segProperty key) (State_path st))
        by by eapply K1.
      intros [U2 K2 C2]%IH. simpl in U2, K2, C2.
      split; [done|done|].
      eapply callsUnder_trans; [|exact C2].
      eapply callsUnder_weaken, C1. apply under_Push.
    + intros [= <- <-].
      split; [by eapply under_Push_l|done|].
      eapply callsUnder_weaken, C1. apply under_Push.
Qed.

Lemma resolveProperties_LoopPost properties :
  Forall (λ kf : string * Walker, GoodWalker kf.2) properties →
  GoodLoop (resolveProperties order properties).
Proof.
  intros H st r st' E. unfold resolveProperties in E.
  apply rangeProperties_LoopPost in E as [U K C]; [by split|].
  by rewrite order_perm.
Qed.

Lemma rangeMapping_LoopPost tagName required optional entries :
  GoodLoop required → GoodLoop optional →
  ∀ variants,
    GoodLoop (rangeMapping e tagName required optional entries variants).
Proof.
  intros Hreq Hopt.
  induction entries as [|[key variant] rest IH]; intros variants st r st';
    simpl.
  - intros [= <- <-]. split; [apply under_refl|done|apply callsUnder_refl].
  - case_decide as Hk.
    { intros [= <- <-]. split; [apply under_refl|done|apply callsUnder_refl]. }
    destruct (required _) as [r1 st1] eqn:E1.
    apply Hreq in E1 as [U1 K1 C1]. simpl in U1, K1, C1.
    assert (callsUnder (State_path st) (State_world st) (State_world st1))
      as C1' by (eapply callsUnder_weaken, C1; apply under_Push).
    destruct r1 as [o1|req].
    { intros [= <- <-]. split; [by eapply under_Push_l|done|done]. }
    destruct (optional _) as [r2 st2] eqn:E2.
    apply Hopt in E2 as [U2 K2 C2]. rewrite K1 in U2, C2.
    simpl in U2, K2, C2.
    assert (callsUnder (State_path st) (State_world st) (State_world st2))
      as C2'.
    { eapply callsUnder_trans; [exact C1'|].
      eapply callsUnder_weaken, C2. apply under_Push. }
    destruct r2 as [o2|opt].
    { intros [= <- <-]. split; [by eapply under_Push_l|done|done]. }
    destruct (invoke _ _ _) as [o3 st3] eqn:E3.
    apply invoke_Post in E3 as [U3 K3 C3]; [|apply under_refl].
    rewrite K2, K1 in U3, K3, C3. simpl in U3, K3, C3.
    assert (callsUnder (State_path st) (State_world st) (State_world st3))
      as C3'.
    { eapply callsUnder_trans; [exact C2'|].
      eapply callsUnder_weaken, C3. apply under_Push. }
    destruct o3 as [name [err|]|].
    + intros [= <- <-]. split; [by eapply under_Push_l|done|done].
    + rewrite (popSegment_pushed (segProperty key) (State_path st))
        by by eapply K3.
      intros [U4 K4 C4]%IH. simpl in U4, K4, C4.
      split; [done|done|]. by eapply callsUnder_trans.
    + intros [= <- <-]. split; [by eapply under_Push_l|done|done].
Qed.

(** *** [walk] itself *)

Lemma walk_Post schema : GoodWalker (walk schema).
Proof.
  induction schema as [id k t el ps os v dn dm IHel IHps IHos IHv _]
    using Schema_ind.
  assert (Forall (λ kf : string * Walker, GoodWalker kf.2)
            (map walkEntry ps)) as Hps.
  { apply Forall_fmap. eapply Forall_impl; [exact IHps|]. by intros []. }
  assert (Forall (λ kf : string * Walker, GoodWalker kf.2)
            (map walkEntry os)) as Hos.
  { apply Forall_fmap. eapply Forall_impl; [exact IHos|]. by intros []. }
  pose proof (resolveProperties_LoopPost _ Hps) as Lps.
  pose proof (resolveProperties_LoopPost _ Hos) as Los.
  intros st o st'. destruct k.
  - simpl. intros [= <- <-].
    split; [apply under_refl|done|apply callsUnder_refl].
  - simpl. destruct t; intros [= <- <-];
      (split; [apply under_refl|done|apply callsUnder_refl]).
  - destruct el as [child|]; [|simpl; intros [= <- <-]].
    2:{ split; [apply under_Push|done|apply callsUnder_refl]. }
    rewrite (walk_Elements _ child) by done.
    destruct (walk child _) as [o1 st1] eqn:E1.
    apply IHel in E1 as [U1 K1 C1]; [|done]. simpl in U1, K1, C1.
    assert (callsUnder (State_path st) (State_world st) (State_world st1))
      as C1' by (eapply callsUnder_weaken, C1; apply under_Push).
    destruct o1 as [name [err|]|].
    + intros [= <- <-]. split; [by eapply under_Push_l|done|done].
    + rewrite (popSegment_pushed segElements (State_path st))
        by by eapply K1.
      intros [U2 K2 C2]%invoke_Post; [|apply under_refl].
      simpl in U2, K2, C2. split; [done|done|by eapply callsUnder_trans].
    + intros [= <- <-]. split; [by eapply under_Push_l|done|done].
  - rewrite walk_Properties by done. simpl.
    destruct (resolveProperties _ _ st) as [r1 st1] eqn:E1.
    apply Lps in E1 as [U1 K1 C1].
    destruct r1 as [o1|req].
    { intros [= <- <-]. split; [done| |done].
      intros name ->. by destruct (K1 name). }
    destruct (resolveProperties _ _ st1) as [r2 st2] eqn:E2.
    apply Los in E2 as [U2 K2 C2]. rewrite K1 in U2, C2.
    assert (callsUnder (State_path st) (State_world st) (State_world st2))
      as C2' by by eapply callsUnder_trans.
    destruct r2 as [o2|opt].
    { intros [= <- <-]. split; [done| |done].
      intros name ->. by destruct (K2 name). }
    intros [U3 K3 C3]%invoke_Post; [|apply under_refl].
    rewrite K2, K1 in U3, K3, C3.
    split; [done|done|by eapply callsUnder_trans].
  - destruct v as [child|]; [|simpl; intros [= <- <-]].
    2:{ split; [apply under_Push|done|apply callsUnder_refl]. }
    rewrite (walk_Values _ child) by done.
    destruct (walk child _) as [o1 st1] eqn:E1.
    apply IHv in E1 as [U1 K1 C1]; [|done]. simpl in U1, K1, C1.
    assert (callsUnder (State_path st) (State_world st) (State_world st1))
      as C1' by (eapply callsUnder_weaken, C1; apply under_Push).
    destruct o1 as [name [err|]|].
    + intros [= <- <-]. split; [by eapply under_Push_l|done|done].
    + rewrite (popSegment_pushed segValues (State_path st))
        by by eapply K1.
      intros [U2 K2 C2]%invoke_Post; [|apply under_refl].
      simpl in U2, K2, C2. split; [done|done|by eapply callsUnder_trans].
    + intros [= <- <-]. split; [by eapply under_Push_l|done|done].
  - rewrite walk_Discriminator by done. simpl.
    destruct (rangeMapping _ _ _ _ _ _ _) as [r1 st1] eqn:E1.
    apply rangeMapping_LoopPost in E1 as [U1 K1 C1]; [|done|done].
    simpl in U1, K1, C1.
    assert (callsUnder (State_path st) (State_world st) (State_world st1))
      as C1' by (eapply callsUnder_weaken, C1; apply under_Push).
    destruct r1 as [o1|variants].
    { intros [= <- <-]. split; [by eapply under_Push_l| |done].
      intros name ->. by destruct (K1 name). }
    rewrite (popSegment_pushed segVariants (State_path st)) by done.
    intros [U2 K2 C2]%invoke_Post; [|apply under_refl].
    simpl in U2, K2, C2. split; [done|done|by eapply callsUnder_trans].
  - simpl. intros [= <- <-].
    split; [apply under_refl|done|apply callsUnder_refl].
Qed.

End WalkerInvariants.

Lemma inOrder_perm n A (l : list A) : inOrder n A l ≡ₚ l.
Proof. done. Qed.

Lemma reversed_perm n A (l : list A) : reversed n A l ≡ₚ l.
Proof. symmetry. apply Permutation_rev. Qed.

(** ** Leaves: empty and primitive nodes *)

(** C7: on an empty node and on a node of one of the four primitive types,
    [walk] returns the Emitter's name for it with a nil error and leaves
    the whole state as it was: the path, the sink and the list of Emitter
    calls are unchanged. *)
Theorem walk_leaf_returns_primitive order e id t el ps os v dn dm st :
  let em := Encoder_Emitter e in
  let node k ty := mkSchema id k ty el ps os v dn dm in
  walk order e (node SchemaKindEmpty t) st
    = (Return (PrimitiveEmpty em) None, st)
  ∧ walk order e (node SchemaKindType SchemaTypeNull) st
    = (Return (PrimitiveNull em) None, st)
  ∧ walk order e (node SchemaKindType SchemaTypeBoolean) st
    = (Return (PrimitiveBoolean em) None, st)
  ∧ walk order e (node SchemaKindType SchemaTypeNumber) st
    = (Return (PrimitiveNumber em) None, st)
  ∧ walk order e (node SchemaKindType SchemaTypeString) st
    = (Return (PrimitiveString em) None, st).
Proof. by repeat split. Qed.

(** ** Nodes that no case handles *)

(** C9: a node whose kind is none of the six kinds of the [switch], or
    whose kind is "type" with a type that is none of null, boolean, number
    and string, gets the empty name and a nil error; nothing else
    changes. *)
Theorem walk_unhandled_returns_empty_name order e schema st :
  unhandled schema →
  walk order e schema st = (Return "" None, st).
Proof.
  destruct schema as [id k t el ps os v dn dm]. unfold unhandled. simpl.
  intros [Hk|[-> Ht]].
  - destruct k; try done; exfalso; apply Hk; unfold handledKinds;
      set_solver.
  - destruct t; try done; exfalso; apply Ht; unfold handledTypes;
      set_solver.
Qed.

Lemma walk_unhandled_returns_empty_name_witness :
  walk inOrder (encoder inOrder []) (schemaType (SchemaTypeOther 7))
    (atRoot "" emptyWorld)
  = (Return "" None, atRoot "" emptyWorld).
Proof.
  apply (walk_unhandled_returns_empty_name inOrder (encoder inOrder [])
           (schemaType (SchemaTypeOther 7)) (atRoot "" emptyWorld)).
  vm_compute. right. split; [reflexivity|]. intros H.
  repeat (apply elem_of_cons in H as [H|H]; [discriminate|]).
  by apply elem_of_nil in H.
Defined.

(** ** The path after a call *)

(** C1, as the code has it: a call of [walk] that returns a nil error
    leaves the path exactly as it found it.  A call that returns an error
    leaves a path that still starts with the segments it found; the
    segments pushed on the way to the failure stay. *)
Theorem walk_restores_path_on_success order e schema st name err st' :
  (∀ n A (l : list A), order n A l ≡ₚ l) →
  walk order e schema st = (Return name err, st') →
  under (State_path st) (State_path st')
  ∧ (err = None → State_path st' = State_path st).
Proof.
  intros Hperm [U K _]%walk_Post; [|done].
  split; [done|]. intros ->. by eapply K.
Qed.

Lemma walk_restores_path_on_success_witness :
  let st := atRoot "" emptyWorld in
  let st' :=
    (walk inOrder (encoder inOrder [])
       (schemaElements (schemaType SchemaTypeString)) st).2 in
  under (State_path st) (State_path st')
  ∧ (@None error = None → State_path st' = State_path st).
Proof.
  apply (walk_restores_path_on_success inOrder (encoder inOrder [])
           (schemaElements (schemaType SchemaTypeString))
           (atRoot "" emptyWorld) "Default" None).
  - apply inOrder_perm.
  - reflexivity.
Defined.

(** C1 does not hold on error returns: on a discriminator node whose
    only mapping entry is an elements schema, [walk] returns the error of
    the kind check while the variants marker it pushed is still on the
    path. *)
Lemma walk_error_keeps_pushed_segment :
  let schema :=
    schemaDiscriminator "type"
      [("b", schemaElements (schemaType SchemaTypeString))] [] [] in
  let st := atRoot "" emptyWorld in
  let r := walk inOrder (encoder inOrder []) schema st in
  r.1 = Return "" (Some errMapping)
  ∧ length (NamePath_Segments (State_path st)) = 0
  ∧ length (NamePath_Segments (State_path r.2)) = 1.
Proof. by vm_compute. Qed.

(** ** Elements nodes *)

(** C6: on an elements node [walk] resolves the child under the pushed
    elements marker; when that gives [name], it calls [EmitArray] with the
    path of the node itself (the marker popped) and [name], after every
    Emitter call of the child, and its result is the result of
    [EmitArray]. *)
Theorem walk_elements_emits_after_child order e schema child st name st1 :
  (∀ n A (l : list A), order n A l ≡ₚ l) →
  Schema_Kind schema = SchemaKindElements →
  Schema_Elements schema = Some child →
  walk order e child (pushSegment segElements st) = (Return name None, st1) →
  let array := mkArray (State_path st) name in
  let w1 := State_world st1 in
  let r := EmitArray (Encoder_Emitter e) array (World_ranges w1) in
  walk order e schema st
  = (Return (Emitted_name r.1) (Emitted_err r.1),
     mkState (State_path st)
       (mkWorld (World_out w1 +:+ Emitted_text r.1)
          (World_calls w1 ++ [CallArray array]) r.2)).
Proof.
  intros Hperm Hk Hel Hchild. simpl.
  rewrite (walk_Elements order e schema child) by done. rewrite Hchild.
  apply walk_Post in Hchild as [_ K _]; [|done].
  rewrite (popSegment_pushed segElements (State_path st)) by by eapply K.
  unfold invoke. simpl. by destruct (EmitArray _ _ _).
Qed.

Lemma walk_elements_emits_after_child_witness :
  walk inOrder (encoder inOrder [])
    (schemaElements (schemaType SchemaTypeString)) (atRoot "" emptyWorld)
  = (Return "Default" None,
     atRoot ""
       (mkWorld ("export type Default = string[];" +:+ newline)
          [CallArray (mkArray (mkNamePath "" []) "string")] 0)).
Proof.
  apply (walk_elements_emits_after_child inOrder (encoder inOrder [])
           (schemaElements (schemaType SchemaTypeString))
           (schemaType SchemaTypeString) (atRoot "" emptyWorld) "string"
           (pushSegment segElements (atRoot "" emptyWorld))).
  - apply inOrder_perm.
  - reflexivity.
  - reflexivity.
  - reflexivity.
Defined.

(** ** [Run] *)

Lemma runSchemas_Processed order e roots w w1 :
  Processed order e roots w w1 →
  ∀ rest, runSchemas order e (roots ++ rest) w = runSchemas order e rest w1.
Proof.
  induction 1 as [|roots schema w w1 name st _ IH Hwalk]; intros rest.
  - done.
  - rewrite <- app_assoc. rewrite IH. simpl. by rewrite Hwalk.
Qed.

(** C4: [Run] walks the roots in registry order, each on a new path
    seeded with the root's identifier and no segment.  When every root
    succeeds it returns nil; when a root fails after the ones before it
    succeeded, it returns that error in the state that root left, whatever
    roots follow. *)
Theorem Run_stops_at_first_error order e w :
  let roots := Registry_Schemas (Encoder_Registry e) in
  (∀ w', Processed order e roots w w' →
         Run order e w = (RunReturn None, w'))
  ∧ (∀ before schema after w1 name err st,
       roots = before ++ schema :: after →
       Processed order e before w w1 →
       walk order e schema (mkState (mkNamePath (Schema_ID schema) []) w1)
         = (Return name (Some err), st) →
       Run order e w = (RunReturn (Some err), State_world st)).
Proof.
  simpl. unfold Run. split.
  - intros w' H. pose proof (runSchemas_Processed _ _ _ _ _ H []) as E.
    by rewrite app_nil_r in E.
  - intros before schema after w1 name err st -> H Hwalk.
    rewrite (runSchemas_Processed _ _ _ _ _ H). simpl. by rewrite Hwalk.
Qed.

(** A run on two roots of which the first fails: one map iteration was
    started, no Emitter call was made and nothing is written, the array
    type of the second root included. *)
Example Run_leaves_later_roots_alone :
  Run inOrder
    (encoder inOrder
       [schemaDiscriminator "type"
          [("b", schemaElements (schemaType SchemaTypeString))] [] [];
        schemaElements (schemaType SchemaTypeString)])
    emptyWorld
  = (RunReturn (Some errMapping), mkWorld "" [] 1).
Proof. by vm_compute. Qed.

(** ** The TypeScript emitter *)

(** C10: what the TypeScript [EmitVariant] writes and returns does not
    depend on [TagName] and [TagValue]; it is what [EmitStruct] writes and
    returns for the same path and property maps. *)
Theorem EmitVariant_ignores_tag order escape path required optional
    tagName tagValue tagName' tagValue' n :
  TypeScript.EmitVariant order escape
    (mkVariant path tagName tagValue required optional) n
  = TypeScript.EmitVariant order escape
      (mkVariant path tagName' tagValue' required optional) n
  ∧ TypeScript.EmitVariant order escape
      (mkVariant path tagName tagValue required optional) n
    = TypeScript.EmitStruct order escape
        (mkStruct path required optional) n.
Proof. by split. Qed.

(** ** Discriminator nodes: the kind check *)

Section KindCheck.

Variable order : nat → ∀ A : Type, list A → list A.
Variable e : Encoder.
Hypothesis order_perm : ∀ n A (l : list A), order n A l ≡ₚ l.

#[local] Abbreviation walk := (walk order e).
#[local] Abbreviation walkEntry := (walkEntry order e).
#[local] Abbreviation em := (Encoder_Emitter e).

Lemma walkEntries_GoodWalker properties :
  Forall (λ kf : string * Walker, GoodWalker kf.2)
    (map walkEntry properties).
Proof.
  apply Forall_fmap, Forall_forall. intros [key value] _. simpl.
  by apply walk_Post.
Qed.

Lemma resolveProperties_GoodLoop properties :
  GoodLoop (resolveProperties order (map walkEntry properties)).
Proof.
  apply resolveProperties_LoopPost; [done|apply walkEntries_GoodWalker].
Qed.

(** The loop over the mapping does not end when one of the entries fails
    the kind check. *)
Lemma rangeMapping_stops tagName required optional entries key variant :
  (key, variant) ∈ entries →
  Schema_Kind variant ≠ SchemaKindProperties →
  ∀ variants st r st',
    rangeMapping e tagName required optional entries variants st = (r, st') →
    ∃ o, r = inl o.
Proof.
  intros Hin Hbad.
  induction entries as [|[key0 variant0] rest IH]; intros variants st r st'.
  { by apply elem_of_nil in Hin. }
  simpl. case_decide as Hk; [intros [= <- <-]; eauto|].
  apply elem_of_cons in Hin as [[= -> ->]|Hin]; [by destruct Hk|].
  destruct (required _) as [[o1|req] st1]; [intros [= <- <-]; eauto|].
  destruct (optional _) as [[o2|opt] st2]; [intros [= <- <-]; eauto|].
  destruct (invoke _ _ _) as [[name [err|]|] st3];
    [intros [= <- <-]; eauto| |intros [= <- <-]; eauto].
  destruct (popSegment st3); [|intros [= <- <-]; eauto].
  by apply IH.
Qed.

Lemma walk_discriminator_fails schema key variant st o st' :
  Schema_Kind schema = SchemaKindDiscriminator →
  (key, variant) ∈ Schema_DiscriminatorMapping schema →
  Schema_Kind variant ≠ SchemaKindProperties →
  walk schema st = (o, st') →
  (∀ name, o ≠ Return name None)
  ∧ callsUnder (Push segVariants (State_path st))
      (State_world st) (State_world st').
Proof.
  intros Hk Hin Hbad. rewrite walk_Discriminator by done.
  destruct (rangeMapping _ _ _ _ _ _ _) as [r st1] eqn:E.
  pose proof E as [o1 ->]%(rangeMapping_stops _ _ _ _ key variant);
    [|by rewrite order_perm|done].
  apply rangeMapping_LoopPost in E as [_ K C];
    [|apply resolveProperties_GoodLoop..].
  by intros [= <- <-].
Qed.

(** *** With an Emitter that never fails, on a schema without nil
    children, the error of the kind check is the only failure *)

Hypothesis em_infallible : infallible em.

Lemma invoke_onlyMappingError c st o st' :
  invoke em c st = (o, st') → onlyMappingError o.
Proof.
  intros (_ & _ & ->)%invoke_calls. by rewrite em_infallible.
Qed.

Lemma rangeProperties_onlyMappingError entries :
  Forall (λ kf : string * Walker,
            GoodWalker kf.2
            ∧ ∀ st o st', kf.2 st = (o, st') → onlyMappingError o) entries →
  ∀ resolved st r st',
    rangeProperties entries resolved st = (r, st') → loopOnlyMappingError r.
Proof.
  induction 1 as [|[key f] rest [Hgood Hf] _ IH]; intros resolved st r st';
    simpl.
  - by intros [= <- <-].
  - destruct (f _) as [o1 st1] eqn:E1.
    pose proof (Hf _ _ _ E1) as Ho. apply Hgood in E1 as [_ K1 _].
    destruct o1 as [name [err|]|]; [| |done].
    + destruct Ho as [_ ->]. by intros [= <- <-].
    + rewrite (popSegment_pushed (segProperty key) (State_path st))
        by by eapply K1.
      apply IH.
Qed.

Lemma rangeMapping_onlyMappingError tagName required optional entries :
  GoodLoop required → GoodLoop optional →
  (∀ st r st', required st = (r, st') → loopOnlyMappingError r) →
  (∀ st r st', optional st = (r, st') → loopOnlyMappingError r) →
  ∀ variants st r st',
    rangeMapping e tagName required optional entries variants st = (r, st') →
    loopOnlyMappingError r.
Proof.
  intros Greq Gopt Hreq Hopt.
  induction entries as [|[key variant] rest IH]; intros variants st r st';
    simpl.
  - by intros [= <- <-].
  - case_decide as Hk; [by intros [= <- <-]|].
    destruct (required _) as [r1 st1] eqn:E1.
    pose proof (Hreq _ _ _ E1) as H1. apply Greq in E1 as [_ K1 _].
    destruct r1 as [o1|req]; [by intros [= <- <-]|].
    destruct (optional _) as [r2 st2] eqn:E2.
    pose proof (Hopt _ _ _ E2) as H2. apply Gopt in E2 as [_ K2 _].
    destruct r2 as [o2|opt]; [by intros [= <- <-]|].
    destruct (invoke _ _ _) as [o3 st3] eqn:E3.
    pose proof (invoke_onlyMappingError _ _ _ _ E3) as H3.
    apply invoke_calls in E3 as (_ & K3 & _).
    destruct o3 as [name [err|]|]; [| |done].
    + destruct H3 as [_ ->]. by intros [= <- <-].
    + rewrite (popSegment_pushed (segProperty key) (State_path st))
        by (rewrite K3, K2, K1; done).
      apply IH.
Qed.

Lemma walk_onlyMappingError schema :
  noNil schema = true →
  ∀ st o st', walk schema st = (o, st') → onlyMappingError o.
Proof.
  induction schema as [id k t el ps os v dn dm IHel IHps IHos IHv _]
    using Schema_ind.
  intros Hnn.
  assert (k = SchemaKindProperties ∨ k = SchemaKindDiscriminator →
          ∀ qs, Forall (λ kv : string * Schema,
                          noNil kv.2 = true →
                          ∀ st o st', walk kv.2 st = (o, st') →
                                      onlyMappingError o) qs →
                forallb (λ kv : string * Schema,
                           let (_, value) := kv in noNil value) qs = true →
                ∀ st r st',
                  resolveProperties order (map walkEntry qs) st = (r, st') →
                  loopOnlyMappingError r) as Hloop.
  { intros _ qs IH Hqs st r st'. unfold resolveProperties.
    apply rangeProperties_onlyMappingError. rewrite order_perm.
    apply Forall_fmap, Forall_forall. intros [key value] Hin. simpl.
    split; [by apply walk_Post|].
    rewrite Forall_forall in IH. apply (IH _ Hin).
    rewrite forallb_forall in Hqs. apply (Hqs (key, value)).
    by apply list_elem_of_In. }
  intros st o st'. destruct k.
  - simpl. by intros [= <- <-].
  - simpl. by destruct t; intros [= <- <-].
  - simpl in Hnn. destruct el as [child|]; [|done].
    rewrite (walk_Elements _ _ _ child) by done.
    destruct (walk child _) as [o1 st1] eqn:E1.
    pose proof (IHel child eq_refl Hnn _ _ _ E1) as H1.
    apply walk_Post in E1 as [_ K1 _]; [|done].
    destruct o1 as [name [err|]|]; [| |done].
    + destruct H1 as [_ ->]. by intros [= <- <-].
    + rewrite (popSegment_pushed segElements (State_path st))
        by by eapply K1.
      apply invoke_onlyMappingError.
  - simpl in Hnn. apply andb_prop in Hnn as [Hps Hos].
    rewrite walk_Properties by done. simpl.
    destruct (resolveProperties _ _ st) as [r1 st1] eqn:E1.
    apply Hloop in E1; [|by left|done|done].
    destruct r1 as [o1|req]; [simpl in E1; subst o1; by intros [= <- <-]|].
    destruct (resolveProperties _ _ st1) as [r2 st2] eqn:E2.
    apply Hloop in E2; [|by left|done|done].
    destruct r2 as [o2|opt]; [simpl in E2; subst o2; by intros [= <- <-]|].
    apply invoke_onlyMappingError.
  - simpl in Hnn. destruct v as [child|]; [|done].
    rewrite (walk_Values _ _ _ child) by done.
    destruct (walk child _) as [o1 st1] eqn:E1.
    pose proof (IHv child eq_refl Hnn _ _ _ E1) as H1.
    apply walk_Post in E1 as [_ K1 _]; [|done].
    destruct o1 as [name [err|]|]; [| |done].
    + destruct H1 as [_ ->]. by intros [= <- <-].
    + rewrite (popSegment_pushed segValues (State_path st))
        by by eapply K1.
      apply invoke_onlyMappingError.
  - simpl in Hnn. apply andb_prop in Hnn as [Hps Hos].
    rewrite walk_Discriminator by done. simpl.
    destruct (rangeMapping _ _ _ _ _ _ _) as [r1 st1] eqn:E1.
    pose proof E1 as H1.
    apply rangeMapping_onlyMappingError in H1;
      [|apply resolveProperties_GoodLoop..
       |intros ???; apply Hloop; [by right|done|done]
       |intros ???; apply Hloop; [by right|done|done]].
    apply rangeMapping_LoopPost in E1 as [_ K1 _];
      [|apply resolveProperties_GoodLoop..].
    destruct r1 as [o1|variants];
      [simpl in H1; subst o1; by intros [= <- <-]|].
    rewrite (popSegment_pushed segVariants (State_path st)) by done.
    apply invoke_onlyMappingError.
  - simpl. by intros [= <- <-].
Qed.

End KindCheck.

(** C3, as the code has it: on a discriminator node with a mapping entry
    that is not of kind properties, [walk] does not succeed; with an
    Emitter that never fails and no nil child it returns the error of the
    kind check, whose message is fixed and names no key. *)
Theorem walk_discriminator_rejects_non_properties
    order e schema key variant st o st' :
  (∀ n A (l : list A), order n A l ≡ₚ l) →
  Schema_Kind schema = SchemaKindDiscriminator →
  (key, variant) ∈ Schema_DiscriminatorMapping schema →
  Schema_Kind variant ≠ SchemaKindProperties →
  walk order e schema st = (o, st') →
  (∀ name, o ≠ Return name None)
  ∧ (infallible (Encoder_Emitter e) → noNil schema = true →
     o = Return "" (Some errMapping)).
Proof.
  intros Hperm Hk Hin Hbad Hwalk.
  pose proof (walk_discriminator_fails order e Hperm _ _ _ _ _ _
                Hk Hin Hbad Hwalk) as [Hfail _].
  split; [done|]. intros Hem Hnn.
  pose proof (walk_onlyMappingError order e Hperm Hem _ Hnn _ _ _ Hwalk)
    as Ho.
  destruct o as [name [err|]|]; [|by destruct (Hfail name)|done].
  by destruct Ho as [-> ->].
Qed.

Lemma TypeScript_infallible order escape :
  infallible (TypeScript.Emitter order escape).
Proof. by intros [] n. Qed.

Lemma walk_discriminator_rejects_non_properties_witness :
  let o :=
    (walk inOrder (encoder inOrder [])
       (schemaDiscriminator "type"
          [("a", schemaProperties [] []);
           ("b", schemaElements (schemaType SchemaTypeString))] [] [])
       (atRoot "" emptyWorld)).1 in
  (∀ name, o ≠ Return name None) ∧ o = Return "" (Some errMapping).
Proof.
  destruct (walk_discriminator_rejects_non_properties inOrder
              (encoder inOrder [])
              (schemaDiscriminator "type"
                 [("a", schemaProperties [] []);
                  ("b", schemaElements (schemaType SchemaTypeString))] [] [])
              "b" (schemaElements (schemaType SchemaTypeString))
              (atRoot "" emptyWorld)
              (walk inOrder (encoder inOrder [])
                 (schemaDiscriminator "type"
                    [("a", schemaProperties [] []);
                     ("b", schemaElements (schemaType SchemaTypeString))]
                    [] [])
                 (atRoot "" emptyWorld)).1
              (walk inOrder (encoder inOrder [])
                 (schemaDiscriminator "type"
                    [("a", schemaProperties [] []);
                     ("b", schemaElements (schemaType SchemaTypeString))]
                    [] [])
                 (atRoot "" emptyWorld)).2) as [Hfail Herr].
  - apply inOrder_perm.
  - reflexivity.
  - simpl. apply elem_of_cons. right. apply elem_of_cons. by left.
  - discriminate.
  - apply surjective_pairing.
  - split; [exact Hfail|].
    apply Herr; [apply TypeScript_infallible|reflexivity].
Defined.

(** C3 does not hold for the report: the outcome and the state that
    [walk] leaves are the same whichever key the offending entry has. *)
Lemma mapping_error_does_not_name_the_key :
  let run key :=
    walk inOrder (encoder inOrder [])
      (schemaDiscriminator "type"
         [(key, schemaElements (schemaType SchemaTypeString))] [] [])
      (atRoot "" emptyWorld) in
  (run "a").1 = Return "" (Some errMapping) ∧ run "a" = run "b".
Proof. by vm_compute. Qed.


(** ** Discriminator nodes: what [EmitVariant] receives *)

Section Variants.

Variable order : nat → ∀ A : Type, list A → list A.
Variable e : Encoder.
Hypothesis order_perm : ∀ n A (l : list A), order n A l ≡ₚ l.

#[local] Abbreviation walk := (walk order e).
#[local] Abbreviation walkEntry := (walkEntry order e).
#[local] Abbreviation em := (Encoder_Emitter e).

Lemma walkEntry_keys properties : (map walkEntry properties).*1 = properties.*1.
Proof.
  induction properties as [|[key value] rest IH]; [done|].
  csimpl. by f_equal.
Qed.

Lemma rangeProperties_resolved (properties : list (string * Schema)) p
    entries :
  (∀ kf : string * Walker, kf ∈ entries →
     ∃ value, (kf.1, value) ∈ properties ∧ kf.2 = walk value) →
  ∀ acc st m st',
    State_path st = p →
    rangeProperties entries acc st = (inr m, st') →
    (∀ key, is_Some (m !! key) ↔ is_Some (acc !! key) ∨ key ∈ entries.*1)
    ∧ ∀ key name, m !! key = Some name →
        acc !! key = Some name
        ∨ ∃ value st1 st2,
            (key, value) ∈ properties
            ∧ State_path st1 = Push (segProperty key) p
            ∧ walk value st1 = (Return name None, st2).
Proof.
  induction entries as [|[key f] rest IH]; intros Hentries acc st m st' Hp;
    simpl.
  - intros [= <- <-]. split; [|by left].
    intros key. rewrite elem_of_nil. tauto.
  - destruct (Hentries (key, f)) as (value & Hin & Hf);
      [apply elem_of_cons; by left|]. simpl in Hin, Hf. subst f.
    destruct (walk value _) as [o1 st1] eqn:E1.
    pose proof E1 as [_ K1 _]%walk_Post; [|done].
    destruct o1 as [name [err|]|]; [done| |done].
    rewrite (popSegment_pushed (segProperty key) (State_path st))
      by by eapply K1.
    intros [Hdom Hval]%IH; [| |by rewrite <- Hp].
    2:{ intros kf Hkf. apply Hentries, elem_of_cons. by right. }
    split.
    + intros k. rewrite Hdom, elem_of_cons.
      destruct (decide (k = key)) as [->|Hne].
      * rewrite lookup_insert_eq. split; [by auto|by eauto].
      * rewrite lookup_insert_ne by done. tauto.
    + intros k nm [Hacc|Hwalk]%Hval; [|by right].
      destruct (decide (k = key)) as [->|Hne].
      * rewrite lookup_insert_eq in Hacc. injection Hacc as <-.
        right. exists value, (pushSegment (segProperty key) st), st1.
        by rewrite <- Hp.
      * rewrite lookup_insert_ne in Hacc by done. by left.
Qed.

Lemma resolveProperties_resolved properties st m st' :
  resolveProperties order (map walkEntry properties) st = (inr m, st') →
  resolvedFrom order e properties (State_path st) m.
Proof.
  unfold resolveProperties.
  intros [Hdom Hval]%(rangeProperties_resolved properties (State_path st));
    [| |done].
  - split.
    + intros key. rewrite Hdom, lookup_empty, order_perm, walkEntry_keys.
      split; [intros [[? [=]]|H]; done|by right].
    + intros key name [Hacc|Hwalk]%Hval; [|done].
      by rewrite lookup_empty in Hacc.
  - intros kf. rewrite order_perm.
    intros ([key value] & -> & Hin)%list_elem_of_fmap. by exists value.
Qed.


End Variants.

(** A run in full: the variant "a" is emitted with the
    property "y" of the discriminator schema; the property "x" of the
    mapping entry appears nowhere. *)
Example variant_has_the_properties_of_the_discriminator :
  let schema :=
    schemaDiscriminator "type"
      [("a", schemaProperties [("x", schemaType SchemaTypeString)] [])]
      [("y", schemaType SchemaTypeNumber)] [] in
  let r := walk inOrder (encoder inOrder []) schema (atRoot "" emptyWorld) in
  r.1 = Return "Default" None
  ∧ World_calls (State_world r.2)
    = [CallVariant
         (mkVariant (mkNamePath "" [segVariants; segProperty "a"])
            "type" "a" {[ "y" := "number" ]} ∅);
       CallUnion (mkUnion (mkNamePath "" []) ["DefaultVarianta"])]
  ∧ World_out (State_world r.2)
    = "export interface DefaultVarianta {" +:+ newline
      +:+ "  y: number;" +:+ newline +:+ "}" +:+ newline
      +:+ "export type Default =" +:+ newline +:+ tab +:+ " DefaultVarianta"
      +:+ newline.
Proof. by vm_compute. Qed.

(** ** Determinism *)

Lemma short_perm {A} (l' l : list A) : l' ≡ₚ l → length l ≤ 1 → l' = l.
Proof.
  destruct l as [|x [|y l]]; simpl; intros H Hl; [| |lia].
  - by apply Permutation_nil_r.
  - by apply Permutation_singleton_r.
Qed.

Section Determinism.

Variables order1 order2 : nat → ∀ A : Type, list A → list A.
Variable escape : string → string.
Variables registry1 registry2 : Registry.
Hypothesis order1_perm : ∀ n A (l : list A), order1 n A l ≡ₚ l.
Hypothesis order2_perm : ∀ n A (l : list A), order2 n A l ≡ₚ l.

#[local] Abbreviation e1 :=
  (mkEncoder registry1 (TypeScript.Emitter order1 escape)).
#[local] Abbreviation e2 :=
  (mkEncoder registry2 (TypeScript.Emitter order2 escape)).

Lemma resolveProperties_single (properties : list (string * Schema)) :
  length properties ≤ 1 →
  Forall (λ kv : string * Schema,
            ∀ st, walk order1 e1 kv.2 st = walk order2 e2 kv.2 st)
    properties →
  ∀ st, resolveProperties order1 (map (walkEntry order1 e1) properties) st
        = resolveProperties order2 (map (walkEntry order2 e2) properties) st.
Proof.
  intros Hlen Hall st. unfold resolveProperties.
  rewrite (short_perm _ _ (order1_perm _ _ _)) by by rewrite length_map.
  rewrite (short_perm _ _ (order2_perm _ _ _)) by by rewrite length_map.
  destruct properties as [|[key value] [|]]; [done| |simpl in Hlen; lia].
  apply Forall_inv in Hall. simpl in Hall. simpl. by rewrite Hall.
Qed.

Lemma resolveProperties_small (entries : list (string * Walker)) st m st' :
  length entries ≤ 1 →
  resolveProperties order2 entries st = (inr m, st') →
  length (map_to_list m) ≤ 1.
Proof.
  intros Hlen. unfold resolveProperties.
  rewrite (short_perm _ _ (order2_perm _ _ _)) by done.
  destruct entries as [|[key f] [|]]; [| |simpl in Hlen; lia]; simpl.
  - intros [= <- _]. by rewrite map_to_list_empty.
  - destruct (f _) as [[name [err|]|] st1]; [done| |done].
    destruct (popSegment st1); [|done].
    intros [= <- _]. by rewrite insert_empty, map_to_list_singleton.
Qed.

Lemma propertyArgs_single (required optional : gmap string string) n :
  length (map_to_list required) ≤ 1 →
  length (map_to_list optional) ≤ 1 →
  TypeScript.requiredArgs order1 n required
    ++ TypeScript.optionalArgs order1 (S n) optional
  = TypeScript.requiredArgs order2 n required
      ++ TypeScript.optionalArgs order2 (S n) optional.
Proof.
  intros Hreq Hopt. unfold TypeScript.requiredArgs, TypeScript.optionalArgs.
  rewrite !(short_perm _ _ (order1_perm _ _ _)) by done.
  by rewrite !(short_perm _ _ (order2_perm _ _ _)) by done.
Qed.

Lemma invoke_single c st :
  match c with
  | CallStruct s =>
      length (map_to_list (Struct_RequiredProperties s)) ≤ 1
      ∧ length (map_to_list (Struct_OptionalProperties s)) ≤ 1
  | CallVariant v =>
      length (map_to_list (Variant_RequiredProperties v)) ≤ 1
      ∧ length (map_to_list (Variant_OptionalProperties v)) ≤ 1
  | _ => True
  end →
  invoke (TypeScript.Emitter order1 escape) c st
  = invoke (TypeScript.Emitter order2 escape) c st.
Proof.
  destruct c as [s|a|v|v|u]; try done; intros [Hreq Hopt];
    unfold invoke; simpl;
    unfold TypeScript.EmitStruct, TypeScript.EmitVariant;
    by rewrite propertyArgs_single.
Qed.

Lemma walk_single schema :
  singleEntryMaps schema = true →
  ∀ st, walk order1 e1 schema st = walk order2 e2 schema st.
Proof.
  induction schema as [id k t el ps os v dn dm IHel IHps IHos IHv _]
    using Schema_ind.
  intros Hsmall.
  assert (∀ qs,
            Forall (λ kv : string * Schema,
                      singleEntryMaps kv.2 = true →
                      ∀ st, walk order1 e1 kv.2 st = walk order2 e2 kv.2 st)
              qs →
            bool_decide (length qs ≤ 1)
            && forallb (λ kv : string * Schema,
                          let (_, value) := kv in singleEntryMaps value) qs
            = true →
            length qs ≤ 1
            ∧ ∀ st,
                resolveProperties order1 (map (walkEntry order1 e1) qs) st
                = resolveProperties order2 (map (walkEntry order2 e2) qs) st)
    as Hloop.
  { intros qs IH [Hlen Hqs]%andb_prop. apply bool_decide_eq_true in Hlen.
    split; [done|]. apply resolveProperties_single; [done|].
    rewrite Forall_forall in IH. apply Forall_forall. intros [key value] Hin.
    apply (IH _ Hin). rewrite forallb_forall in Hqs.
    apply (Hqs (key, value)). by apply list_elem_of_In. }
  intros st. destruct k; try done.
  - simpl in Hsmall. destruct el as [child|]; [|done].
    rewrite (walk_Elements order1 e1 _ child),
      (walk_Elements order2 e2 _ child) by done.
    rewrite (IHel child eq_refl Hsmall).
    by destruct (walk order2 e2 child _) as [[name [err|]|] st1].
  - simpl in Hsmall. apply andb_prop in Hsmall as [Hps Hos].
    apply Hloop in Hps as [Lps Eps]; [|done].
    apply Hloop in Hos as [Los Eos]; [|done].
    rewrite (walk_Properties order1 e1), (walk_Properties order2 e2)
      by done.
    simpl. rewrite Eps.
    destruct (resolveProperties order2 _ st) as [[o1|req] st1] eqn:E1;
      [done|].
    rewrite Eos.
    destruct (resolveProperties order2 _ st1) as [[o2|opt] st2] eqn:E2;
      [done|].
    apply resolveProperties_small in E1, E2; [|by rewrite length_map..].
    by apply invoke_single.
  - simpl in Hsmall. destruct v as [child|]; [|done].
    rewrite (walk_Values order1 e1 _ child),
      (walk_Values order2 e2 _ child) by done.
    rewrite (IHv child eq_refl Hsmall).
    by destruct (walk order2 e2 child _) as [[name [err|]|] st1].
  - simpl in Hsmall.
    apply andb_prop in Hsmall as [Hdm [Hps Hos]%andb_prop].
    apply bool_decide_eq_true in Hdm.
    apply Hloop in Hps as [Lps Eps]; [|done].
    apply Hloop in Hos as [Los Eos]; [|done].
    rewrite (walk_Discriminator order1 e1), (walk_Discriminator order2 e2)
      by done.
    simpl.
    rewrite (short_perm _ _ (order1_perm _ _ _)) by done.
    rewrite (short_perm _ _ (order2_perm _ _ _)) by done.
    destruct dm as [|[key variant] [|]]; [| |simpl in Hdm; lia]; simpl.
    + by destruct (popSegment _).
    + case_decide; [done|]. rewrite Eps.
      destruct (resolveProperties order2 _ _) as [[o1|req] st1] eqn:E1;
        [done|].
      rewrite Eos.
      destruct (resolveProperties order2 _ st1) as [[o2|opt] st2] eqn:E2;
        [done|].
      apply resolveProperties_small in E1, E2; [|by rewrite length_map..].
      by rewrite (propertyArgs_single req opt) by done.
Qed.

Lemma runSchemas_single roots w :
  Forall (λ schema, singleEntryMaps schema = true) roots →
  runSchemas order1 e1 roots w = runSchemas order2 e2 roots w.
Proof.
  intros H. revert w. induction H as [|schema roots Hs _ IH]; intros w.
  - done.
  - simpl. rewrite (walk_single schema Hs).
    by destruct (walk order2 e2 schema _) as [[name [err|]|] st].
Qed.

End Determinism.

(** C8, as the code has it: for a registry in which no map that the
    walker iterates over has more than one entry, two runs with the
    TypeScript emitter return the same result, write the same bytes and
    make the same Emitter calls, whatever order the map iterations of
    each run take. *)
Theorem Run_deterministic_on_single_entry_maps
    order1 order2 escape roots w :
  (∀ n A (l : list A), order1 n A l ≡ₚ l) →
  (∀ n A (l : list A), order2 n A l ≡ₚ l) →
  Forall (λ schema, singleEntryMaps schema = true) roots →
  Run order1
    (mkEncoder (mkRegistry roots) (TypeScript.Emitter order1 escape)) w
  = Run order2
      (mkEncoder (mkRegistry roots) (TypeScript.Emitter order2 escape)) w.
Proof.
  intros H1 H2 Hroots. unfold Run. simpl. by apply runSchemas_single.
Qed.

Lemma Run_deterministic_on_single_entry_maps_witness :
  let roots :=
    [schemaProperties
       [("name", schemaElements (schemaType SchemaTypeString))]
       [("age", schemaType SchemaTypeNumber)];
     schemaDiscriminator "type" [("a", schemaProperties [] [])] [] []] in
  Run inOrder (encoder inOrder roots) emptyWorld
  = Run reversed (encoder reversed roots) emptyWorld.
Proof.
  apply (Run_deterministic_on_single_entry_maps inOrder reversed htmlEscape
           [schemaProperties
              [("name", schemaElements (schemaType SchemaTypeString))]
              [("age", schemaType SchemaTypeNumber)];
            schemaDiscriminator "type" [("a", schemaProperties [] [])] [] []]
           emptyWorld).
  - apply inOrder_perm.
  - apply reversed_perm.
  - repeat constructor.
Defined.

(** C8 does not hold for larger maps: with two entries in a properties
    map, a run that visits them in one order and a run that visits them
    in the other order generate the names in different orders and write
    different bytes.  Both orders are orders that a [range] over a map may
    take. *)
Lemma Run_output_depends_on_iteration_order :
  let roots :=
    [schemaProperties
       [("a", schemaElements (schemaType SchemaTypeString));
        ("b", schemaElements (schemaType SchemaTypeNumber))] []] in
  let w1 := (Run inOrder (encoder inOrder roots) emptyWorld).2 in
  let w2 := (Run reversed (encoder reversed roots) emptyWorld).2 in
  ((∀ n A (l : list A), inOrder n A l ≡ₚ l)
   ∧ (∀ n A (l : list A), reversed n A l ≡ₚ l))
  ∧ (generatedNames w1 = ["Defaulta"; "Defaultb"; "Default"]
     ∧ generatedNames w2 = ["Defaultb"; "Defaulta"; "Default"])
  ∧ (World_out w1
     = "export type Defaulta = string[];" +:+ newline
       +:+ "export type Defaultb = number[];" +:+ newline
       +:+ "export interface Default {" +:+ newline
       +:+ "  a: Defaulta;" +:+ newline
       +:+ "  b: Defaultb;" +:+ newline +:+ "}" +:+ newline
     ∧ World_out w2
       = "export type Defaultb = number[];" +:+ newline
         +:+ "export type Defaulta = string[];" +:+ newline
         +:+ "export interface Default {" +:+ newline
         +:+ "  b: Defaultb;" +:+ newline
         +:+ "  a: Defaulta;" +:+ newline +:+ "}" +:+ newline)
  ∧ World_out w1 ≠ World_out w2.
Proof.
  split; [split; [apply inOrder_perm|apply reversed_perm]|].
  split; [by vm_compute|]. split; [by vm_compute|]. by vm_compute.
Qed.

(** * Further properties of the walker and of the emitter *)

(** ** [NamePath] *)

(** X1: [Pop] undoes [Push]; on a path without segments [Pop] panics, and
    on any other path it removes exactly the last segment, so that pushing
    that segment again gives the path back. *)
Theorem Pop_inverts_Push np :
  (∀ segment, Pop (Push segment np) = Some np)
  ∧ match Pop np with
    | None => NamePath_Segments np = []
    | Some np' => ∃ segment, np = Push segment np'
    end.
Proof.
  split; [intros segment; apply Pop_Push|].
  destruct np as [id l]. unfold Pop. simpl.
  destruct l as [|s0 l0] eqn:E; [done|]. rewrite <- E.
  assert (l ≠ []) as Hne by by rewrite E.
  clear E. induction l as [|x l _] using rev_ind; [done|].
  exists x. unfold Push. simpl. f_equal.
  rewrite length_app. simpl.
  replace (length l + 1 - 1) with (length l) by lia.
  by rewrite take_app_length.
Qed.

(** ** The order of the Emitter calls *)

Section CallShape.

Variable order : nat → ∀ A : Type, list A → list A.
Variable e : Encoder.
Hypothesis order_perm : ∀ n A (l : list A), order n A l ≡ₚ l.

#[local] Abbreviation walk := (walk order e).
#[local] Abbreviation walkEntry := (walkEntry order e).
#[local] Abbreviation em := (Encoder_Emitter e).
#[local] Abbreviation callsOf st := (World_calls (State_world st)).

Lemma not_composite k :
  k ≠ SchemaKindElements → k ≠ SchemaKindProperties →
  k ≠ SchemaKindValues → k ≠ SchemaKindDiscriminator →
  k ∉ compositeKinds.
Proof.
  intros H1 H2 H3 H4. unfold compositeKinds.
  rewrite !elem_of_cons, elem_of_nil. tauto.
Qed.

Lemma callsUnder_strictly segment p w w' :
  callsUnder (Push segment p) w w' →
  ∃ new, World_calls w' = World_calls w ++ new
         ∧ Forall (λ c, strictlyUnder p (Call_Path c)) new.
Proof.
  intros (new & E & F). exists new. split; [done|].
  eapply Forall_impl; [exact F|]. intros c Hc. by exists segment.
Qed.

Lemma rangeProperties_strict entries :
  Forall (λ kf : string * Walker, GoodWalker kf.2) entries →
  ∀ resolved st r st',
    rangeProperties entries resolved st = (r, st') →
    ∃ new, callsOf st' = callsOf st ++ new
           ∧ Forall (λ c, strictlyUnder (State_path st) (Call_Path c)) new.
Proof.
  induction 1 as [|[key f] rest Hf _ IH]; intros resolved st r st'; simpl.
  - intros [= <- <-]. exists []. by rewrite app_nil_r.
  - destruct (f _) as [o1 st1] eqn:E1. apply Hf in E1 as [_ K1 C1].
    apply callsUnder_strictly in C1 as (n1 & C1 & F1). simpl in K1, C1.
    destruct o1 as [name [err|]|]; [by intros [= <- <-]; exists n1| |].
    + rewrite (popSegment_pushed (segProperty key) (State_path st))
        by by eapply K1.
      intros (n2 & C2 & F2)%IH. simpl in C2, F2.
      exists (n1 ++ n2). split; [by rewrite C2, C1, app_assoc|].
      by apply Forall_app.
    + intros [= <- <-]. by exists n1.
Qed.

Lemma resolveProperties_strict properties st r st' :
  resolveProperties order (map walkEntry properties) st = (r, st') →
  ∃ new, callsOf st' = callsOf st ++ new
         ∧ Forall (λ c, strictlyUnder (State_path st) (Call_Path c)) new.
Proof.
  unfold resolveProperties. intros H.
  apply rangeProperties_strict in H; [done|].
  rewrite order_perm. by apply walkEntries_GoodWalker.
Qed.

(** The calls of one call of [walk]: first calls on longer paths, then at
    most one call on the path of the node, whose result is the result of
    [walk]. *)
Lemma walk_calls_shape schema st o st' :
  walk schema st = (o, st') →
  ∃ earlier own,
    callsOf st' = callsOf st ++ earlier ++ own
    ∧ Forall (λ c, strictlyUnder (State_path st) (Call_Path c)) earlier
    ∧ ((own = []
        ∧ ∀ name, o = Return name None →
                  Schema_Kind schema ∉ compositeKinds)
       ∨ ∃ c n, own = [c]
                ∧ Call_Path c = State_path st
                ∧ o = Return (Emitted_name (emit em c n).1)
                        (Emitted_err (emit em c n).1)).
Proof.
  assert (∀ st0 : State, ∃ earlier own : list Call,
            callsOf st0 = callsOf st0 ++ earlier ++ own
            ∧ Forall (λ c, strictlyUnder (State_path st) (Call_Path c))
                earlier
            ∧ own = []) as Hnone.
  { intros st0. exists [], []. by rewrite app_nil_r. }
  assert (∀ name0 : string, ∀ st1 n1,
            callsOf st1 = callsOf st ++ n1 →
            Forall (λ c, strictlyUnder (State_path st) (Call_Path c)) n1 →
            ∀ c, Call_Path c = State_path st →
            invoke em c (mkState (State_path st) (State_world st1))
              = (o, st') →
            ∃ earlier own,
              callsOf st' = callsOf st ++ earlier ++ own
              ∧ Forall (λ c, strictlyUnder (State_path st) (Call_Path c))
                  earlier
              ∧ ((own = []
                  ∧ ∀ name, o = Return name None →
                            Schema_Kind schema ∉ compositeKinds)
                 ∨ ∃ c n, own = [c]
                          ∧ Call_Path c = State_path st
                          ∧ o = Return (Emitted_name (emit em c n).1)
                                  (Emitted_err (emit em c n).1))) as Hown.
  { intros _ st1 n1 C1 F1 c Hc (C2 & _ & ->)%invoke_calls. simpl in C2.
    exists n1, [c]. split; [by rewrite C2, C1, <- app_assoc|].
    split; [done|]. right. by exists c, (World_ranges (State_world st1)). }
  assert (∀ st1 n1 o1,
            callsOf st1 = callsOf st ++ n1 →
            Forall (λ c, strictlyUnder (State_path st) (Call_Path c)) n1 →
            (∀ name, o1 ≠ Return name None) →
            ∃ earlier own,
              callsOf st1 = callsOf st ++ earlier ++ own
              ∧ Forall (λ c, strictlyUnder (State_path st) (Call_Path c))
                  earlier
              ∧ ((own = []
                  ∧ ∀ name, o1 = Return name None →
                            Schema_Kind schema ∉ compositeKinds)
                 ∨ ∃ c n, own = [c]
                          ∧ Call_Path c = State_path st
                          ∧ o1 = Return (Emitted_name (emit em c n).1)
                                   (Emitted_err (emit em c n).1))) as Hfail.
  { intros st1 n1 o1 C1 F1 Hno. exists n1, [].
    split; [by rewrite app_nil_r|]. split; [done|]. left.
    split; [done|]. intros name ->. by destruct (Hno name). }
  destruct (Schema_Kind schema) eqn:Hk.
  - destruct schema; simpl in Hk; subst; simpl. intros [= <- <-].
    exists [], []. rewrite app_nil_r. repeat split; [done|]. left.
    split; [done|]. intros _ _. by apply not_composite.
  - destruct schema as [id k t el ps os v dn dm]; simpl in Hk; subst; simpl.
    destruct t; intros [= <- <-]; exists [], []; rewrite app_nil_r;
      (repeat split; [done|]); left; (split; [done|]); intros _ _;
      by apply not_composite.
  - destruct (Schema_Elements schema) as [child|] eqn:Hel.
    2:{ destruct schema; simpl in Hk, Hel; subst; simpl. intros [= <- <-].
        apply (Hfail _ []); [by rewrite app_nil_r|done|done]. }
    rewrite (walk_Elements _ _ _ child) by done.
    destruct (walk child _) as [o1 st1] eqn:E1.
    apply walk_Post in E1 as [_ K1 C1]; [|done].
    apply callsUnder_strictly in C1 as (n1 & C1 & F1). simpl in K1, C1.
    destruct o1 as [name [err|]|].
    + intros [= <- <-]. by apply (Hfail _ n1).
    + rewrite (popSegment_pushed segElements (State_path st))
        by by eapply K1.
      by apply (Hown name _ n1).
    + intros [= <- <-]. by apply (Hfail _ n1).
  - rewrite walk_Properties by done.
    destruct (resolveProperties _ _ st) as [r1 st1] eqn:E1.
    pose proof E1 as [_ K1 _]%resolveProperties_GoodLoop; [|done].
    apply resolveProperties_strict in E1 as (n1 & C1 & F1).
    destruct r1 as [o1|req]; [intros [= <- <-]; by apply (Hfail _ n1)|].
    destruct (resolveProperties _ _ st1) as [r2 st2] eqn:E2.
    pose proof E2 as [_ K2 _]%resolveProperties_GoodLoop; [|done].
    apply resolveProperties_strict in E2 as (n2 & C2 & F2).
    rewrite K1 in F2.
    assert (callsOf st2 = callsOf st ++ n1 ++ n2) as C12
      by by rewrite C2, C1, app_assoc.
    assert (Forall (λ c, strictlyUnder (State_path st) (Call_Path c))
              (n1 ++ n2)) as F12 by by apply Forall_app.
    destruct r2 as [o2|opt]; [intros [= <- <-]; by apply (Hfail _ (n1 ++ n2))|].
    rewrite K2, K1 in *. intros Hinv.
    apply (Hown "" st2 (n1 ++ n2) C12 F12
             (CallStruct (mkStruct (State_path st) req opt)) eq_refl).
    destruct st2 as [p2 w2]. simpl in *. by subst p2.
  - destruct (Schema_Values schema) as [child|] eqn:Hel.
    2:{ destruct schema; simpl in Hk, Hel; subst; simpl. intros [= <- <-].
        apply (Hfail _ []); [by rewrite app_nil_r|done|done]. }
    rewrite (walk_Values _ _ _ child) by done.
    destruct (walk child _) as [o1 st1] eqn:E1.
    apply walk_Post in E1 as [_ K1 C1]; [|done].
    apply callsUnder_strictly in C1 as (n1 & C1 & F1). simpl in K1, C1.
    destruct o1 as [name [err|]|].
    + intros [= <- <-]. by apply (Hfail _ n1).
    + rewrite (popSegment_pushed segValues (State_path st))
        by by eapply K1.
      by apply (Hown name _ n1).
    + intros [= <- <-]. by apply (Hfail _ n1).
  - rewrite walk_Discriminator by done.
    destruct (rangeMapping _ _ _ _ _ _ _) as [r1 st1] eqn:E1.
    apply rangeMapping_LoopPost in E1 as [_ K1 C1];
      [|by apply resolveProperties_GoodLoop..].
    apply callsUnder_strictly in C1 as (n1 & C1 & F1). simpl in K1, C1.
    destruct r1 as [o1|variants]; [intros [= <- <-]; by apply (Hfail _ n1)|].
    rewrite (popSegment_pushed segVariants (State_path st)) by done.
    by apply (Hown "" _ n1).
  - destruct schema; simpl in Hk; subst; simpl. intros [= <- <-].
    exists [], []. rewrite app_nil_r. repeat split; [done|]. left.
    split; [done|]. intros _ _. by apply not_composite.
Qed.

End CallShape.

(** X2: whatever a call of [walk] returns, the Emitter calls it made are
    first calls on paths strictly longer than the path of the node, and
    then at most one call on the path of the node itself; when [walk]
    succeeds on a node of a composite kind, that last call is there.  So a
    node is emitted after everything below it. *)
Theorem walk_emits_bottom_up order e schema st o st' :
  (∀ n A (l : list A), order n A l ≡ₚ l) →
  walk order e schema st = (o, st') →
  ∃ earlier own,
    World_calls (State_world st')
    = World_calls (State_world st) ++ earlier ++ own
    ∧ Forall (λ c, strictlyUnder (State_path st) (Call_Path c)) earlier
    ∧ (own = [] ∨ ∃ c, own = [c] ∧ Call_Path c = State_path st)
    ∧ (∀ name, o = Return name None →
               Schema_Kind schema ∈ compositeKinds → own ≠ []).
Proof.
  intros Hperm Hwalk.
  destruct (walk_calls_shape order e Hperm _ _ _ _ Hwalk)
    as (earlier & own & Hcalls & Hearlier & Hown).
  exists earlier, own. split; [done|]. split; [done|].
  destruct Hown as [[-> Hleaf]|(c & n & -> & Hc & _)].
  - split; [by left|]. intros name Ho Hk. by destruct (Hleaf name Ho).
  - split; [right; by exists c|done].
Qed.

Lemma walk_emits_bottom_up_witness :
  let st := atRoot "" emptyWorld in
  let r :=
    walk inOrder (encoder inOrder [])
      (schemaProperties
         [("tags", schemaElements (schemaType SchemaTypeString))] []) st in
  ∃ earlier own,
    World_calls (State_world r.2)
    = World_calls (State_world st) ++ earlier ++ own
    ∧ Forall (λ c, strictlyUnder (State_path st) (Call_Path c)) earlier
    ∧ (own = [] ∨ ∃ c, own = [c] ∧ Call_Path c = State_path st)
    ∧ (∀ name, r.1 = Return name None →
               SchemaKindProperties ∈ compositeKinds → own ≠ []).
Proof.
  apply (walk_emits_bottom_up inOrder (encoder inOrder [])
           (schemaProperties
              [("tags", schemaElements (schemaType SchemaTypeString))] [])
           (atRoot "" emptyWorld)).
  - apply inOrder_perm.
  - apply surjective_pairing.
Defined.

(** ** Values and properties nodes *)

(** X3: on a values node [walk] resolves the child under the pushed
    values marker; when that gives [name], it calls [EmitValues] with the
    path of the node itself and [name], after every Emitter call of the
    child, and its result is the result of [EmitValues]. *)
Theorem walk_values_emits_after_child order e schema child st name st1 :
  (∀ n A (l : list A), order n A l ≡ₚ l) →
  Schema_Kind schema = SchemaKindValues →
  Schema_Values schema = Some child →
  walk order e child (pushSegment segValues st) = (Return name None, st1) →
  let values := mkValues (State_path st) name in
  let w1 := State_world st1 in
  let r := EmitValues (Encoder_Emitter e) values (World_ranges w1) in
  walk order e schema st
  = (Return (Emitted_name r.1) (Emitted_err r.1),
     mkState (State_path st)
       (mkWorld (World_out w1 +:+ Emitted_text r.1)
          (World_calls w1 ++ [CallValues values]) r.2)).
Proof.
  intros Hperm Hk Hv Hchild. simpl.
  rewrite (walk_Values order e schema child) by done. rewrite Hchild.
  apply walk_Post in Hchild as [_ K _]; [|done].
  rewrite (popSegment_pushed segValues (State_path st)) by by eapply K.
  unfold invoke. simpl. by destruct (EmitValues _ _ _).
Qed.

Lemma walk_values_emits_after_child_witness :
  walk inOrder (encoder inOrder [])
    (mkSchema "" SchemaKindValues SchemaTypeNull None [] []
       (Some (schemaType SchemaTypeNumber)) "" [])
    (atRoot "" emptyWorld)
  = (Return "Default" None,
     atRoot ""
       (mkWorld
          ("export interface Default {" +:+ newline +:+ tab
             +:+ "[key: string]: number;" +:+ newline +:+ "}" +:+ newline)
          [CallValues (mkValues (mkNamePath "" []) "number")] 0)).
Proof.
  apply (walk_values_emits_after_child inOrder (encoder inOrder [])
           (mkSchema "" SchemaKindValues SchemaTypeNull None [] []
              (Some (schemaType SchemaTypeNumber)) "" [])
           (schemaType SchemaTypeNumber) (atRoot "" emptyWorld) "number"
           (pushSegment segValues (atRoot "" emptyWorld))).
  - apply inOrder_perm.
  - reflexivity.
  - reflexivity.
  - reflexivity.
Defined.

(** X4: when [walk] succeeds on a properties node, its last Emitter call
    is [EmitStruct] on the path of the node, with one map that holds the
    resolved names of exactly the keys of [Properties] and one that holds
    those of exactly the keys of [OptionalProperties]; each name is what
    [walk] returned for the value under the property segment of its
    key. *)
Theorem walk_properties_emits_resolved order e schema st name st' :
  (∀ n A (l : list A), order n A l ≡ₚ l) →
  Schema_Kind schema = SchemaKindProperties →
  walk order e schema st = (Return name None, st') →
  ∃ earlier required optional,
    World_calls (State_world st')
    = World_calls (State_world st) ++ earlier
        ++ [CallStruct (mkStruct (State_path st) required optional)]
    ∧ resolvedFrom order e (Schema_Properties schema) (State_path st)
        required
    ∧ resolvedFrom order e (Schema_OptionalProperties schema)
        (State_path st) optional.
Proof.
  intros Hperm Hk. rewrite walk_Properties by done.
  destruct (resolveProperties _ _ st) as [r1 st1] eqn:E1.
  pose proof E1 as [_ K1 (n1 & C1 & _)]%resolveProperties_GoodLoop; [|done].
  destruct r1 as [o1|req]; [intros [= -> <-]; by destruct (K1 name)|].
  apply resolveProperties_resolved in E1; [|done].
  destruct (resolveProperties _ _ st1) as [r2 st2] eqn:E2.
  pose proof E2 as [_ K2 (n2 & C2 & _)]%resolveProperties_GoodLoop; [|done].
  destruct r2 as [o2|opt]; [intros [= -> <-]; by destruct (K2 name)|].
  apply resolveProperties_resolved in E2; [|done]. rewrite K1 in E2.
  intros (C3 & _ & _)%invoke_calls.
  exists (n1 ++ n2), req, opt. split; [|done].
  rewrite C3, C2, C1, K2, K1. by rewrite <- !app_assoc.
Qed.

Lemma walk_properties_emits_resolved_witness :
  let schema :=
    schemaProperties [("name", schemaType SchemaTypeString)]
      [("tags", schemaElements (schemaType SchemaTypeString))] in
  let st := atRoot "" emptyWorld in
  let st' := (walk inOrder (encoder inOrder []) schema st).2 in
  ∃ earlier required optional,
    World_calls (State_world st')
    = World_calls (State_world st) ++ earlier
        ++ [CallStruct (mkStruct (State_path st) required optional)]
    ∧ resolvedFrom inOrder (encoder inOrder [])
        (Schema_Properties schema) (State_path st) required
    ∧ resolvedFrom inOrder (encoder inOrder [])
        (Schema_OptionalProperties schema) (State_path st) optional.
Proof.
  apply (walk_properties_emits_resolved inOrder (encoder inOrder [])
           (schemaProperties [("name", schemaType SchemaTypeString)]
              [("tags", schemaElements (schemaType SchemaTypeString))])
           (atRoot "" emptyWorld) "Default").
  - apply inOrder_perm.
  - reflexivity.
  - vm_compute. reflexivity.
Defined.

(** ** Discriminator nodes without mapping entries *)

(** X5: on a discriminator node whose mapping is empty, [walk] calls no
    [EmitVariant] and resolves none of the node's properties: after
    starting the one iteration over the mapping, it calls [EmitUnion] on
    the path of the node with an empty list of variants and returns its
    result. *)
Theorem walk_discriminator_without_mapping order e schema st :
  (∀ n A (l : list A), order n A l ≡ₚ l) →
  Schema_Kind schema = SchemaKindDiscriminator →
  Schema_DiscriminatorMapping schema = [] →
  walk order e schema st
  = invoke (Encoder_Emitter e) (CallUnion (mkUnion (State_path st) []))
      (startRange st).
Proof.
  intros Hperm Hk Hdm. rewrite walk_Discriminator by done.
  rewrite Hdm. rewrite (short_perm _ _ (Hperm _ _ _)) by (simpl; lia).
  simpl. by rewrite (popSegment_pushed segVariants (State_path st)).
Qed.

Lemma walk_discriminator_without_mapping_witness :
  walk inOrder (encoder inOrder [])
    (schemaDiscriminator "type" []
       [("x", schemaElements (schemaType SchemaTypeString))] [])
    (atRoot "" emptyWorld)
  = (Return "Default" None,
     atRoot ""
       (mkWorld ("export type Default =" +:+ newline)
          [CallUnion (mkUnion (mkNamePath "" []) [])] 1)).
Proof.
  apply (walk_discriminator_without_mapping inOrder (encoder inOrder [])
           (schemaDiscriminator "type" []
              [("x", schemaElements (schemaType SchemaTypeString))] [])
           (atRoot "" emptyWorld)).
  - apply inOrder_perm.
  - reflexivity.
  - reflexivity.
Defined.

(** ** Panics *)

Section NoPanic.

Variable order : nat → ∀ A : Type, list A → list A.
Variable e : Encoder.
Hypothesis order_perm : ∀ n A (l : list A), order n A l ≡ₚ l.

#[local] Abbreviation walk := (walk order e).
#[local] Abbreviation walkEntry := (walkEntry order e).
#[local] Abbreviation em := (Encoder_Emitter e).

Lemma rangeProperties_noPanic entries :
  Forall (λ kf : string * Walker,
            GoodWalker kf.2
            ∧ ∀ st o st', kf.2 st = (o, st') → o ≠ Panic) entries →
  ∀ resolved st r st',
    rangeProperties entries resolved st = (r, st') → r ≠ inl Panic.
Proof.
  induction 1 as [|[key f] rest [Hgood Hf] _ IH]; intros resolved st r st';
    simpl.
  - by intros [= <- <-].
  - destruct (f _) as [o1 st1] eqn:E1.
    pose proof (Hf _ _ _ E1) as Ho. apply Hgood in E1 as [_ K1 _].
    destruct o1 as [name [err|]|]; [by intros [= <- <-]| |done].
    rewrite (popSegment_pushed (segProperty key) (State_path st))
      by by eapply K1.
    apply IH.
Qed.

Lemma rangeMapping_noPanic tagName required optional entries :
  GoodLoop required → GoodLoop optional →
  (∀ st r st', required st = (r, st') → r ≠ inl Panic) →
  (∀ st r st', optional st = (r, st') → r ≠ inl Panic) →
  ∀ variants st r st',
    rangeMapping e tagName required optional entries variants st = (r, st') →
    r ≠ inl Panic.
Proof.
  intros Greq Gopt Hreq Hopt.
  induction entries as [|[key variant] rest IH]; intros variants st r st';
    simpl.
  - by intros [= <- <-].
  - case_decide as Hk; [by intros [= <- <-]|].
    destruct (required _) as [r1 st1] eqn:E1.
    pose proof (Hreq _ _ _ E1) as H1. apply Greq in E1 as [_ K1 _].
    destruct r1 as [o1|req]; [intros [= <- <-] [= ->]; by destruct H1|].
    destruct (optional _) as [r2 st2] eqn:E2.
    pose proof (Hopt _ _ _ E2) as H2. apply Gopt in E2 as [_ K2 _].
    destruct r2 as [o2|opt]; [intros [= <- <-] [= ->]; by destruct H2|].
    destruct (invoke _ _ _) as [o3 st3] eqn:E3.
    apply invoke_calls in E3 as (_ & K3 & ->).
    destruct (Emitted_err _) as [err|]; [by intros [= <- <-]|].
    rewrite (popSegment_pushed (segProperty key) (State_path st))
      by (rewrite K3, K2, K1; done).
    apply IH.
Qed.

Lemma walk_noPanic schema :
  noNil schema = true →
  ∀ st o st', walk schema st = (o, st') → o ≠ Panic.
Proof.
  induction schema as [id k t el ps os v dn dm IHel IHps IHos IHv _]
    using Schema_ind.
  intros Hnn.
  assert (∀ qs, Forall (λ kv : string * Schema,
                          noNil kv.2 = true →
                          ∀ st o st', walk kv.2 st = (o, st') → o ≠ Panic)
                  qs →
                forallb (λ kv : string * Schema,
                           let (_, value) := kv in noNil value) qs = true →
                ∀ st r st',
                  resolveProperties order (map walkEntry qs) st = (r, st') →
                  r ≠ inl Panic) as Hloop.
  { intros qs IH Hqs st r st'. unfold resolveProperties.
    apply rangeProperties_noPanic. rewrite order_perm.
    apply Forall_fmap, Forall_forall. intros [key value] Hin. simpl.
    split; [by apply walk_Post|].
    rewrite Forall_forall in IH. apply (IH _ Hin).
    rewrite forallb_forall in Hqs. apply (Hqs (key, value)).
    by apply list_elem_of_In. }
  assert (∀ c st o st', invoke em c st = (o, st') → o ≠ Panic) as Hinv.
  { by intros c st o st' (_ & _ & ->)%invoke_calls. }
  intros st o st'. destruct k.
  - simpl. by intros [= <- <-].
  - simpl. by destruct t; intros [= <- <-].
  - simpl in Hnn. destruct el as [child|]; [|done].
    rewrite (walk_Elements _ _ _ child) by done.
    destruct (walk child _) as [o1 st1] eqn:E1.
    pose proof (IHel child eq_refl Hnn _ _ _ E1) as H1.
    apply walk_Post in E1 as [_ K1 _]; [|done].
    destruct o1 as [name [err|]|]; [by intros [= <- <-]| |done].
    rewrite (popSegment_pushed segElements (State_path st))
      by by eapply K1.
    apply Hinv.
  - simpl in Hnn. apply andb_prop in Hnn as [Hps Hos].
    rewrite walk_Properties by done. simpl.
    destruct (resolveProperties _ _ st) as [r1 st1] eqn:E1.
    apply Hloop in E1; [|done|done].
    destruct r1 as [o1|req]; [intros [= <- <-]; congruence|].
    destruct (resolveProperties _ _ st1) as [r2 st2] eqn:E2.
    apply Hloop in E2; [|done|done].
    destruct r2 as [o2|opt]; [intros [= <- <-]; congruence|].
    apply Hinv.
  - simpl in Hnn. destruct v as [child|]; [|done].
    rewrite (walk_Values _ _ _ child) by done.
    destruct (walk child _) as [o1 st1] eqn:E1.
    pose proof (IHv child eq_refl Hnn _ _ _ E1) as H1.
    apply walk_Post in E1 as [_ K1 _]; [|done].
    destruct o1 as [name [err|]|]; [by intros [= <- <-]| |done].
    rewrite (popSegment_pushed segValues (State_path st))
      by by eapply K1.
    apply Hinv.
  - simpl in Hnn. apply andb_prop in Hnn as [Hps Hos].
    rewrite walk_Discriminator by done. simpl.
    destruct (rangeMapping _ _ _ _ _ _ _) as [r1 st1] eqn:E1.
    pose proof E1 as H1.
    apply rangeMapping_noPanic in H1;
      [|by apply resolveProperties_GoodLoop..
       |intros ???; by apply Hloop
       |intros ???; by apply Hloop].
    apply rangeMapping_LoopPost in E1 as [_ K1 _];
      [|by apply resolveProperties_GoodLoop..].
    destruct r1 as [o1|variants]; [intros [= <- <-]; congruence|].
    rewrite (popSegment_pushed segVariants (State_path st)) by done.
    apply Hinv.
  - simpl. by intros [= <- <-].
Qed.

Lemma runSchemas_noPanic roots w :
  Forall (λ schema, noNil schema = true) roots →
  ∃ err, (runSchemas order e roots w).1 = RunReturn err.
Proof.
  intros H. revert w. induction H as [|schema roots Hs _ IH]; intros w.
  - by exists None.
  - simpl. destruct (walk schema _) as [o st] eqn:E.
    pose proof (walk_noPanic schema Hs _ _ _ E) as Ho.
    destruct o as [name [err|]|]; [by exists (Some err)|apply IH|done].
Qed.

End NoPanic.

(** X6: in a registry without any nil schema pointer (the roots and the
    values of the maps are not nil by their type; [noNil] says the same
    of the [Elements] and [Values] pointers that the walker follows),
    [Run] returns (nil or an error) and never panics: [Pop] is never
    called on a path without segments. *)
Theorem Run_returns_without_panic order e w :
  (∀ n A (l : list A), order n A l ≡ₚ l) →
  Forall (λ schema, noNil schema = true)
    (Registry_Schemas (Encoder_Registry e)) →
  ∃ err, (Run order e w).1 = RunReturn err.
Proof. intros Hperm Hroots. unfold Run. by apply runSchemas_noPanic. Qed.

Lemma Run_returns_without_panic_witness :
  ∃ err,
    (Run reversed
       (encoder reversed
          [schemaProperties
             [("a", schemaElements (schemaType SchemaTypeString));
              ("b", schemaType SchemaTypeNumber)] [];
           schemaDiscriminator "type"
             [("b", schemaElements (schemaType SchemaTypeString))] [] []])
       emptyWorld).1
    = RunReturn err.
Proof.
  apply (Run_returns_without_panic reversed
           (encoder reversed
              [schemaProperties
                 [("a", schemaElements (schemaType SchemaTypeString));
                  ("b", schemaType SchemaTypeNumber)] [];
               schemaDiscriminator "type"
                 [("b", schemaElements (schemaType SchemaTypeString))]
                 [] []])
           emptyWorld).
  - apply reversed_perm.
  - repeat constructor.
Defined.

(** ** The identifiers on the paths *)

Lemma runSchemas_ids order e roots :
  (∀ n A (l : list A), order n A l ≡ₚ l) →
  ∀ w, ∃ new,
    World_calls (runSchemas order e roots w).2 = World_calls w ++ new
    ∧ ∀ c, c ∈ new →
           NamePath_SchemaID (Call_Path c) ∈ Schema_ID <$> roots.
Proof.
  intros Hperm. induction roots as [|schema roots IH]; intros w; simpl.
  - exists []. split; [by rewrite app_nil_r|]. by intros c ?%elem_of_nil.
  - destruct (walk order e schema _) as [o st] eqn:E.
    apply walk_Post in E as [_ _ (n1 & C1 & F1)]; [|done]. simpl in C1, F1.
    assert (∀ c, c ∈ n1 →
                 NamePath_SchemaID (Call_Path c)
                 ∈ Schema_ID schema :: (Schema_ID <$> roots)) as Hn1.
    { intros c Hc. rewrite Forall_forall in F1.
      destruct (F1 c Hc) as [-> _]. apply elem_of_cons. by left. }
    destruct o as [name [err|]|]; simpl; [by exists n1| |by exists n1].
    destruct (IH (State_world st)) as (n2 & C2 & F2).
    exists (n1 ++ n2). split; [by rewrite C2, C1, app_assoc|].
    intros c [Hc|Hc]%elem_of_app; [by apply Hn1|].
    apply elem_of_cons. right. by apply F2.
Qed.

(** X8: every Emitter call that [Run] makes, whether it ends with nil,
    with an error or with a panic, is on a path that carries the
    identifier of one of the roots of the registry. *)
Theorem Run_calls_carry_root_ids order e w :
  (∀ n A (l : list A), order n A l ≡ₚ l) →
  ∃ new,
    World_calls (Run order e w).2 = World_calls w ++ new
    ∧ ∀ c, c ∈ new →
           NamePath_SchemaID (Call_Path c)
           ∈ Schema_ID <$> Registry_Schemas (Encoder_Registry e).
Proof. intros Hperm. by apply runSchemas_ids. Qed.

Lemma Run_calls_carry_root_ids_witness :
  let roots :=
    [mkSchema "user.json" SchemaKindElements SchemaTypeNull
       (Some (schemaType SchemaTypeString)) [] [] None "" [];
     mkSchema "group.json" SchemaKindValues SchemaTypeNull None [] []
       (Some (schemaType SchemaTypeNumber)) "" []] in
  ∃ new,
    World_calls (Run reversed (encoder reversed roots) emptyWorld).2
    = World_calls emptyWorld ++ new
    ∧ ∀ c, c ∈ new →
           NamePath_SchemaID (Call_Path c) ∈ Schema_ID <$> roots.
Proof.
  apply (Run_calls_carry_root_ids reversed
           (encoder reversed
              [mkSchema "user.json" SchemaKindElements SchemaTypeNull
                 (Some (schemaType SchemaTypeString)) [] [] None "" [];
               mkSchema "group.json" SchemaKindValues SchemaTypeNull None
                 [] [] (Some (schemaType SchemaTypeNumber)) "" []])
           emptyWorld).
  apply reversed_perm.
Defined.

(** ** The names of the TypeScript emitter *)

Lemma TypeScript_name order escape c n :
  Emitted_name (emit (TypeScript.Emitter order escape) c n).1
  = TypeScript.typeName (Call_Path c).
Proof. by destruct c. Qed.

Lemma append_assoc (s1 s2 s3 : string) :
  (s1 +:+ s2) +:+ s3 = s1 +:+ (s2 +:+ s3).
Proof.
  induction s1 as [|c s1 IH]; [done|].
  change (String c ((s1 +:+ s2) +:+ s3) = String c (s1 +:+ (s2 +:+ s3))).
  by f_equal.
Qed.

Lemma typeName_Push segment p :
  TypeScript.typeName (Push segment p)
  = TypeScript.typeName p
    +:+ (if Segment_Elements segment then "Element"
         else if Segment_Variants segment then "Variant"
         else if Segment_Values segment then "Value"
         else Segment_Property segment).
Proof.
  unfold TypeScript.typeName, Push. simpl. rewrite foldl_app. simpl.
  by destruct (Segment_Elements segment), (Segment_Variants segment),
    (Segment_Values segment).
Qed.

(** X9: with the TypeScript emitter, the name that a successful [walk]
    returns for a node of a composite kind is made from the path of the
    node alone; nothing of the schema below the node is in it. *)
Theorem walk_names_node_after_path
    order order' escape registry schema st name st' :
  (∀ n A (l : list A), order n A l ≡ₚ l) →
  Schema_Kind schema ∈ compositeKinds →
  walk order (mkEncoder registry (TypeScript.Emitter order' escape))
    schema st = (Return name None, st') →
  name = TypeScript.typeName (State_path st).
Proof.
  intros Hperm Hk Hwalk.
  destruct (walk_calls_shape order _ Hperm _ _ _ _ Hwalk)
    as (earlier & own & _ & _ & [[_ Hleaf]|(c & n & _ & Hc & Ho)]).
  - by destruct (Hleaf name eq_refl).
  - injection Ho as -> _. simpl. by rewrite TypeScript_name, Hc.
Qed.

Lemma walk_names_node_after_path_witness :
  let st :=
    mkState (mkNamePath "" [segProperty "user"; segElements]) emptyWorld in
  let r :=
    walk reversed (encoder reversed [])
      (schemaProperties
         [("a", schemaElements (schemaType SchemaTypeString));
          ("b", schemaType SchemaTypeNumber)] []) st in
  r.1 = Return "DefaultuserElement" None
  ∧ "DefaultuserElement" = TypeScript.typeName (State_path st).
Proof.
  split; [by vm_compute|].
  apply (walk_names_node_after_path reversed reversed htmlEscape
           (mkRegistry [])
           (schemaProperties
              [("a", schemaElements (schemaType SchemaTypeString));
               ("b", schemaType SchemaTypeNumber)] [])
           (mkState (mkNamePath "" [segProperty "user"; segElements])
              emptyWorld)
           "DefaultuserElement"
           (walk reversed (encoder reversed [])
              (schemaProperties
                 [("a", schemaElements (schemaType SchemaTypeString));
                  ("b", schemaType SchemaTypeNumber)] [])
              (mkState (mkNamePath "" [segProperty "user"; segElements])
                 emptyWorld)).2).
  - apply reversed_perm.
  - unfold compositeKinds. simpl. rewrite !elem_of_cons. auto.
  - vm_compute. reflexivity.
Defined.

(** X10: the TypeScript names do not keep path segments apart.  Two
    property segments in a row name a type like the single property
    segment of the joined keys, and a marker names a type like a property
    called "Element", "Value" or "Variant"; so types at different places
    of a schema can get the same name. *)
Theorem typeName_joins_segments p a b :
  TypeScript.typeName (Push (segProperty b) (Push (segProperty a) p))
  = TypeScript.typeName (Push (segProperty (a +:+ b)) p)
  ∧ TypeScript.typeName (Push segElements p)
    = TypeScript.typeName (Push (segProperty "Element") p)
  ∧ TypeScript.typeName (Push segValues p)
    = TypeScript.typeName (Push (segProperty "Value") p)
  ∧ TypeScript.typeName (Push segVariants p)
    = TypeScript.typeName (Push (segProperty "Variant") p).
Proof.
  rewrite !typeName_Push. simpl. by rewrite append_assoc.
Qed.

(** A run in which that happens: the array of arrays under "x" and the
    array under "xElement" are both emitted as [DefaultxElement]. *)
Example Run_emits_one_name_twice :
  let roots :=
    [schemaProperties
       [("x", schemaElements (schemaElements (schemaType SchemaTypeString)));
        ("xElement", schemaElements (schemaType SchemaTypeNumber))] []] in
  generatedNames (Run inOrder (encoder inOrder roots) emptyWorld).2
  = ["DefaultxElement"; "Defaultx"; "DefaultxElement"; "Default"].
Proof. by vm_compute. Qed.

Section UnionVariants.

Variables order order' : nat → ∀ A : Type, list A → list A.
Variable escape : string → string.
Variable e : Encoder.
Hypothesis order_perm : ∀ n A (l : list A), order n A l ≡ₚ l.
Hypothesis e_TypeScript :
  Encoder_Emitter e = TypeScript.Emitter order' escape.

Lemma rangeMapping_names tagName required optional entries :
  GoodLoop required → GoodLoop optional →
  ∀ variants st vs st',
    rangeMapping e tagName required optional entries variants st
      = (inr vs, st') →
    vs = variants
         ++ ((λ key, TypeScript.typeName
                       (Push (segProperty key) (State_path st)))
               <$> entries.*1).
Proof.
  intros Greq Gopt.
  induction entries as [|[key variant] rest IH]; intros variants st vs st';
    simpl.
  - intros [= <- <-]. by rewrite app_nil_r.
  - case_decide as Hk; [done|].
    destruct (required _) as [r1 st1] eqn:E1.
    apply Greq in E1 as [_ K1 _].
    destruct r1 as [o1|req]; [done|].
    destruct (optional _) as [r2 st2] eqn:E2.
    apply Gopt in E2 as [_ K2 _].
    destruct r2 as [o2|opt]; [done|].
    destruct (invoke _ _ _) as [o3 st3] eqn:E3.
    apply invoke_calls in E3 as (_ & K3 & ->). simpl in K1.
    rewrite e_TypeScript, TypeScript_name. simpl.
    rewrite (popSegment_pushed (segProperty key) (State_path st))
      by (rewrite K3, K2, K1; done).
    intros ->%IH. simpl. rewrite K2, K1. by rewrite <- app_assoc.
Qed.

Lemma walk_union_call schema st name st' :
  Schema_Kind schema = SchemaKindDiscriminator →
  walk order e schema st = (Return name None, st') →
  ∃ earlier,
    World_calls (State_world st')
    = World_calls (State_world st) ++ earlier
        ++ [CallUnion
              (mkUnion (State_path st)
                 (variantName (State_path st)
                    <$> (order (World_ranges (State_world st)) _
                           (Schema_DiscriminatorMapping schema)).*1))].
Proof.
  intros Hk. rewrite walk_Discriminator by done.
  destruct (rangeMapping _ _ _ _ _ _ _) as [r1 st1] eqn:E1.
  pose proof E1 as [_ K1 (n1 & C1 & _)]%rangeMapping_LoopPost;
    [|by apply resolveProperties_GoodLoop..].
  destruct r1 as [o1|variants]; [intros [= -> <-]; by destruct (K1 name)|].
  apply rangeMapping_names in E1; [|by apply resolveProperties_GoodLoop..].
  simpl in E1, K1, C1. subst variants.
  rewrite (popSegment_pushed segVariants (State_path st)) by done.
  intros (C2 & _ & _)%invoke_calls. simpl in C2.
  exists n1. by rewrite C2, C1, <- app_assoc.
Qed.

End UnionVariants.

(** X11: when [walk] with the TypeScript emitter succeeds on a
    discriminator node, its last Emitter call is [EmitUnion] on the path
    of the node, and the variants it lists are the names of the variants
    of the mapping keys, one for each entry, in the order in which the
    iteration over the mapping visited the entries. *)
Theorem walk_union_lists_every_variant
    order order' escape registry schema st name st' :
  (∀ n A (l : list A), order n A l ≡ₚ l) →
  Schema_Kind schema = SchemaKindDiscriminator →
  walk order (mkEncoder registry (TypeScript.Emitter order' escape))
    schema st = (Return name None, st') →
  ∃ earlier visited,
    World_calls (State_world st')
    = World_calls (State_world st) ++ earlier
        ++ [CallUnion
              (mkUnion (State_path st)
                 (variantName (State_path st) <$> visited.*1))]
    ∧ visited
      = order (World_ranges (State_world st)) _
          (Schema_DiscriminatorMapping schema)
    ∧ variantName (State_path st) <$> visited.*1
      ≡ₚ variantName (State_path st)
           <$> (Schema_DiscriminatorMapping schema).*1.
Proof.
  intros Hperm Hk Hwalk.
  destruct (walk_union_call order order' escape
              (mkEncoder registry (TypeScript.Emitter order' escape))
              Hperm eq_refl _ _ _ _ Hk Hwalk) as (earlier & Hcalls).
  exists earlier, (order (World_ranges (State_world st)) _
                     (Schema_DiscriminatorMapping schema)).
  split; [done|]. split; [done|]. by rewrite Hperm.
Qed.

Lemma walk_union_lists_every_variant_witness :
  let schema :=
    schemaDiscriminator "type"
      [("a", schemaProperties [] []); ("b", schemaProperties [] [])]
      [("id", schemaType SchemaTypeString)] [] in
  let st := atRoot "" emptyWorld in
  let st' := (walk reversed (encoder reversed []) schema st).2 in
  ∃ earlier visited,
    World_calls (State_world st')
    = World_calls (State_world st) ++ earlier
        ++ [CallUnion
              (mkUnion (State_path st)
                 (variantName (State_path st) <$> visited.*1))]
    ∧ visited
      = reversed (World_ranges (State_world st)) _
          (Schema_DiscriminatorMapping schema)
    ∧ variantName (State_path st) <$> visited.*1
      ≡ₚ variantName (State_path st)
           <$> (Schema_DiscriminatorMapping schema).*1.
Proof.
  apply (walk_union_lists_every_variant reversed reversed htmlEscape
           (mkRegistry [])
           (schemaDiscriminator "type"
              [("a", schemaProperties [] []); ("b", schemaProperties [] [])]
              [("id", schemaType SchemaTypeString)] [])
           (atRoot "" emptyWorld) "Default").
  - apply reversed_perm.
  - reflexivity.
  - vm_compute. reflexivity.
Defined.

(** * Discriminator nodes, call by call *)



Section DiscriminatorCalls.

Variable order : nat → ∀ A : Type, list A → list A.
Variable e : Encoder.
Hypothesis order_perm : ∀ n A (l : list A), order n A l ≡ₚ l.

#[local] Abbreviation walk := (walk order e).
#[local] Abbreviation walkEntry := (walkEntry order e).
#[local] Abbreviation em := (Encoder_Emitter e).
#[local] Abbreviation callsOf st := (World_calls (State_world st)).





End DiscriminatorCalls.




(** In the run above [walk] fails at the entry "b", after the variant "a"
    was emitted with the property "y" of the node. *)
Example variant_of_a_failing_walk :
  let schema :=
    schemaDiscriminator "type"
      [("a", schemaProperties [("x", schemaType SchemaTypeString)] []);
       ("b", schemaElements (schemaType SchemaTypeString))]
      [("y", schemaElements (schemaType SchemaTypeNumber))] [] in
  let r := walk inOrder (encoder inOrder []) schema (atRoot "" emptyWorld) in
  r.1 = Return "" (Some errMapping)
  ∧ World_calls (State_world r.2)
    = [CallArray
         (mkArray
            (mkNamePath "" [segVariants; segProperty "a"; segProperty "y"])
            "number");
       CallVariant
         (mkVariant (mkNamePath "" [segVariants; segProperty "a"])
            "type" "a" {[ "y" := "DefaultVariantay" ]} ∅)].
Proof. by vm_compute. Qed.



(** The scenario of a single mapping entry of kind elements: [Run]
    returns the error of the kind check; no type is emitted and nothing is
    written. *)
Example single_elements_entry_emits_nothing :
  Run inOrder
    (encoder inOrder
       [schemaDiscriminator "type"
          [("b", schemaElements (schemaType SchemaTypeString))]
          [("id", schemaElements (schemaType SchemaTypeString))] []])
    emptyWorld
  = (RunReturn (Some errMapping), mkWorld "" [] 1).
Proof. by vm_compute. Qed.

(** * Fail-fast *)

Lemma Emits_app em w cs1 w1 cs2 w2 :
  Emits em w cs1 w1 → Emits em w1 cs2 w2 → Emits em w (cs1 ++ cs2) w2.
Proof.
  induction 1 as [w|w cs w1 _ IH|w c cs w1 Hc _ IH]; intros H2; simpl.
  - done.
  - apply Emits_range. by apply IH.
  - apply Emits_call; [done|by apply IH].
Qed.

Lemma Emits_calls em w cs w' :
  Emits em w cs w' → World_calls w' = World_calls w ++ cs.
Proof.
  induction 1 as [w|w cs w1 _ IH|w c cs w1 Hc _ IH].
  - by rewrite app_nil_r.
  - done.
  - rewrite IH. unfold afterCall. destruct (emit em c _) as [r n]. simpl.
    by rewrite <- app_assoc.
Qed.

Lemma failFast_rename em w name1 name2 err w' :
  failFast em w (Return name1 err) w' → failFast em w (Return name2 err) w'.
Proof. done. Qed.

Lemma failFast_after em w cs w1 o w' :
  Emits em w cs w1 → failFast em w1 o w' → failFast em w o w'.
Proof.
  intros H1. unfold failFast.
  assert ((∃ cs2, Emits em w1 cs2 w') → ∃ cs2, Emits em w cs2 w') as Hok.
  { intros [cs2 H2]. exists (cs ++ cs2). by eapply Emits_app. }
  destruct o as [name [err|]|]; [|exact Hok..].
  intros [[-> H2]|(cs2 & wc & c & H2 & Herr & ->)];
    [left; split; [done|by apply Hok]|].
  right. exists (cs ++ cs2), wc, c. split; [by eapply Emits_app|done].
Qed.

Lemma failFast_range em w o w' :
  failFast em (afterRange w) o w' → failFast em w o w'.
Proof. apply (failFast_after em w []), Emits_range, Emits_done. Qed.

Lemma invoke_failFast em c st o st' :
  invoke em c st = (o, st') →
  failFast em (State_world st) o (State_world st').
Proof.
  unfold invoke.
  destruct (emit em c (World_ranges (State_world st))) as [r n] eqn:E.
  intros [= <- <-]. simpl.
  assert (mkWorld (World_out (State_world st) +:+ Emitted_text r)
            (World_calls (State_world st) ++ [c]) n
          = afterCall em c (State_world st)) as ->
    by (unfold afterCall; by rewrite E).
  destruct (Emitted_err r) as [err|] eqn:Herr.
  - right. exists [], (State_world st), c.
    split; [apply Emits_done|]. by rewrite E.
  - exists [c]. apply Emits_call; [by rewrite E|apply Emits_done].
Qed.

Lemma popSegment_world st st2 :
  popSegment st = Some st2 → State_world st2 = State_world st.
Proof. unfold popSegment. by destruct (Pop _); intros [= <-]. Qed.

Section FailFast.

Variable order : nat → ∀ A : Type, list A → list A.
Variable e : Encoder.
Hypothesis order_perm : ∀ n A (l : list A), order n A l ≡ₚ l.

#[local] Abbreviation walk := (walk order e).
#[local] Abbreviation walkEntry := (walkEntry order e).
#[local] Abbreviation em := (Encoder_Emitter e).
#[local] Abbreviation loopFailFast r w w' :=
  (match r with
   | inl o => failFast em w o w'
   | inr _ => ∃ cs, Emits em w cs w'
   end).

Lemma rangeProperties_failFast entries :
  Forall (λ kf : string * Walker,
            ∀ st o st', kf.2 st = (o, st') →
                        failFast em (State_world st) o (State_world st'))
    entries →
  ∀ resolved st r st',
    rangeProperties entries resolved st = (r, st') →
    loopFailFast r (State_world st) (State_world st').
Proof.
  induction 1 as [|[key f] rest Hf _ IH]; intros resolved st r st'; simpl.
  - intros [= <- <-]. exists []. apply Emits_done.
  - destruct (f _) as [o1 st1] eqn:E1. apply Hf in E1. simpl in E1.
    destruct o1 as [name [err|]|]; [by intros [= <- <-]| |by intros [= <- <-]].
    destruct E1 as [cs1 E1].
    destruct (popSegment st1) as [st2|] eqn:Hpop;
      [|intros [= <- <-]; by exists cs1].
    apply popSegment_world in Hpop. intros Hrest%IH. rewrite Hpop in Hrest.
    destruct r as [o|m]; [by eapply failFast_after|].
    destruct Hrest as [cs2 Hrest]. exists (cs1 ++ cs2). by eapply Emits_app.
Qed.

Lemma rangeMapping_failFast tagName required optional entries :
  (∀ st r st', required st = (r, st') →
               loopFailFast r (State_world st) (State_world st')) →
  (∀ st r st', optional st = (r, st') →
               loopFailFast r (State_world st) (State_world st')) →
  ∀ variants st r st',
    rangeMapping e tagName required optional entries variants st = (r, st') →
    loopFailFast r (State_world st) (State_world st').
Proof.
  intros Hreq Hopt.
  induction entries as [|[key variant] rest IH]; intros variants st r st';
    simpl.
  - intros [= <- <-]. exists []. apply Emits_done.
  - case_decide as Hk.
    { intros [= <- <-]. left. split; [done|]. exists []. apply Emits_done. }
    destruct (required _) as [r1 st1] eqn:E1. apply Hreq in E1.
    simpl in E1.
    destruct r1 as [o1|req]; [by intros [= <- <-]|]. destruct E1 as [cs1 E1].
    destruct (optional _) as [r2 st2] eqn:E2. apply Hopt in E2.
    destruct r2 as [o2|opt];
      [intros [= <- <-]; by eapply failFast_after|].
    destruct E2 as [cs2 E2].
    pose proof (Emits_app _ _ _ _ _ _ E1 E2) as E12.
    destruct (invoke _ _ _) as [o3 st3] eqn:E3.
    apply invoke_failFast in E3.
    destruct o3 as [name [err|]|].
    + intros [= <- <-]. eapply failFast_after; [exact E12|].
      by eapply failFast_rename.
    + destruct E3 as [cs3 E3].
      pose proof (Emits_app _ _ _ _ _ _ E12 E3) as E123.
      destruct (popSegment st3) as [st4|] eqn:Hpop;
        [|intros [= <- <-]; by eexists].
      apply popSegment_world in Hpop. intros Hrest%IH.
      rewrite Hpop in Hrest.
      destruct r as [o|vs]; [by eapply failFast_after|].
      destruct Hrest as [cs4 Hrest]. eexists. by eapply Emits_app.
    + intros [= <- <-]. by eapply (failFast_after _ _ _ _ Panic).
Qed.

Lemma walk_failFast schema :
  ∀ st o st', walk schema st = (o, st') →
              failFast em (State_world st) o (State_world st').
Proof.
  induction schema as [id k t el ps os v dn dm IHel IHps IHos IHv _]
    using Schema_ind.
  assert (∀ qs, Forall (λ kv : string * Schema,
                          ∀ st o st', walk kv.2 st = (o, st') →
                            failFast em (State_world st) o (State_world st'))
                  qs →
                ∀ st r st',
                  resolveProperties order (map walkEntry qs) st = (r, st') →
                  loopFailFast r (State_world st) (State_world st'))
    as Hloop.
  { intros qs IH st r st'. unfold resolveProperties. intros H.
    apply rangeProperties_failFast in H.
    - simpl in H. destruct r as [o|m]; [by apply failFast_range|].
      destruct H as [cs H]. exists cs. by apply Emits_range.
    - rewrite order_perm. apply Forall_fmap, Forall_forall.
      intros [key value] Hin. simpl.
      rewrite Forall_forall in IH. apply (IH _ Hin). }
  assert (∀ w, ∃ cs, Emits em w cs w) as Hnone
    by (intros w; exists []; apply Emits_done).
  assert (∀ (child : Schema) (segment : NamePathSegment)
            (mk : string → State → Call) st o st',
            (∀ st o st', walk child st = (o, st') →
               failFast em (State_world st) o (State_world st')) →
            match walk child (pushSegment segment st) with
            | (Return name None, st1) =>
                match popSegment st1 with
                | Some st2 => invoke em (mk name st2) st2
                | None => (Panic, st1)
                end
            | (Return _ (Some err), st1) => (Return "" (Some err), st1)
            | (Panic, st1) => (Panic, st1)
            end = (o, st') →
            failFast em (State_world st) o (State_world st')) as Hchild.
  { intros child segment mk st o st' IH.
    destruct (walk child _) as [o1 st1] eqn:E1. apply IH in E1. simpl in E1.
    destruct o1 as [name [err|]|]; [by intros [= <- <-]| |by intros [= <- <-]].
    destruct E1 as [cs1 E1].
    destruct (popSegment st1) as [st2|] eqn:Hpop;
      [|intros [= <- <-]; by exists cs1].
    apply popSegment_world in Hpop. intros H%invoke_failFast.
    rewrite Hpop in H. by eapply failFast_after. }
  intros st o st'. destruct k.
  - simpl. intros [= <- <-]. apply Hnone.
  - simpl. destruct t; intros [= <- <-]; apply Hnone.
  - destruct el as [child|]; [|simpl; intros [= <- <-]; apply Hnone].
    rewrite (walk_Elements _ _ _ child) by done.
    apply (Hchild child segElements
             (λ name st2, CallArray (mkArray (State_path st2) name))).
    by apply IHel.
  - rewrite walk_Properties by done. simpl.
    destruct (resolveProperties _ _ st) as [r1 st1] eqn:E1.
    apply (Hloop _ IHps) in E1.
    destruct r1 as [o1|req]; [by intros [= <- <-]|]. destruct E1 as [cs1 E1].
    destruct (resolveProperties _ _ st1) as [r2 st2] eqn:E2.
    apply (Hloop _ IHos) in E2.
    destruct r2 as [o2|opt];
      [intros [= <- <-]; by eapply failFast_after|].
    destruct E2 as [cs2 E2]. intros H%invoke_failFast.
    eapply failFast_after; [exact E1|]. by eapply failFast_after.
  - destruct v as [child|]; [|simpl; intros [= <- <-]; apply Hnone].
    rewrite (walk_Values _ _ _ child) by done.
    apply (Hchild child segValues
             (λ name st2, CallValues (mkValues (State_path st2) name))).
    by apply IHv.
  - rewrite walk_Discriminator by done. simpl.
    destruct (rangeMapping _ _ _ _ _ _ _) as [r1 st1] eqn:E1.
    apply rangeMapping_failFast in E1;
      [|intros ???; apply (Hloop _ IHps)|intros ???; apply (Hloop _ IHos)].
    simpl in E1.
    destruct r1 as [o1|variants];
      [intros [= <- <-]; by apply failFast_range|].
    destruct E1 as [cs1 E1]. apply Emits_range in E1.
    destruct (popSegment st1) as [st2|] eqn:Hpop;
      [|intros [= <- <-]; by exists cs1].
    apply popSegment_world in Hpop. intros H%invoke_failFast.
    rewrite Hpop in H. by eapply failFast_after.
  - simpl. intros [= <- <-]. apply Hnone.
Qed.

Lemma runSchemas_failFast roots :
  ∀ w ro w',
    runSchemas order e roots w = (ro, w') →
    match ro with
    | RunReturn (Some err) =>
        (err = errMapping ∧ ∃ cs, Emits em w cs w') ∨ stoppedAt em w err w'
    | _ => ∃ cs, Emits em w cs w'
    end.
Proof.
  induction roots as [|schema roots IH]; intros w ro w'; simpl.
  - intros [= <- <-]. exists []. apply Emits_done.
  - destruct (walk schema _) as [o st] eqn:E. apply walk_failFast in E.
    simpl in E. destruct o as [name [err|]|]; [by intros [= <- <-]| |
                                               by intros [= <- <-]].
    destruct E as [cs1 E]. intros H%IH.
    destruct ro as [[err|]|].
    + by apply (failFast_after em w cs1 (State_world st)
                  (Return "" (Some err)) w').
    + destruct H as [cs2 H]. exists (cs1 ++ cs2). by eapply Emits_app.
    + destruct H as [cs2 H]. exists (cs1 ++ cs2). by eapply Emits_app.
Qed.

End FailFast.

(** X7: [Run] is fail-fast.  Whatever it returns, all Emitter calls of
    the run but possibly the last returned a nil error.  When [Run]
    returns an error, either all calls returned nil and the error is the
    one of the kind check, or the error is the one that the last Emitter
    call returned, and the run ended in the state right after that call:
    nothing was called, written or iterated afterwards.  The calls in
    question are the calls recorded in the state. *)
Theorem Run_is_fail_fast order e w ro w' :
  (∀ n A (l : list A), order n A l ≡ₚ l) →
  Run order e w = (ro, w') →
  match ro with
  | RunReturn (Some err) =>
      (err = errMapping ∧ ∃ cs, Emits (Encoder_Emitter e) w cs w')
      ∨ stoppedAt (Encoder_Emitter e) w err w'
  | _ => ∃ cs, Emits (Encoder_Emitter e) w cs w'
  end
  ∧ ∀ cs wc, Emits (Encoder_Emitter e) w cs wc →
             World_calls wc = World_calls w ++ cs.
Proof.
  intros Hperm H. split; [by eapply runSchemas_failFast|].
  intros cs wc. apply Emits_calls.
Qed.

Lemma Run_is_fail_fast_witness :
  let err := "write /dev/stdout: file already closed" in
  let e :=
    mkEncoder
      (mkRegistry
         [schemaElements (schemaType SchemaTypeString);
          schemaProperties
            [("tags", schemaElements (schemaType SchemaTypeString))] []])
      (onClosedSink (TypeScript.Emitter inOrder htmlEscape) err) in
  let w' := (Run inOrder e emptyWorld).2 in
  ((err = errMapping ∧ ∃ cs, Emits (Encoder_Emitter e) emptyWorld cs w')
   ∨ stoppedAt (Encoder_Emitter e) emptyWorld err w')
  ∧ ∀ cs wc, Emits (Encoder_Emitter e) emptyWorld cs wc →
             World_calls wc = World_calls emptyWorld ++ cs.
Proof.
  apply (Run_is_fail_fast inOrder
           (mkEncoder
              (mkRegistry
                 [schemaElements (schemaType SchemaTypeString);
                  schemaProperties
                    [("tags", schemaElements (schemaType SchemaTypeString))]
                    []])
              (onClosedSink (TypeScript.Emitter inOrder htmlEscape)
                 "write /dev/stdout: file already closed"))
           emptyWorld
           (RunReturn (Some "write /dev/stdout: file already closed"))).
  - apply inOrder_perm.
  - vm_compute. reflexivity.
Defined.
